(** * Signed media URL generator: token lifecycle of [server.js]

    A shallow embedding of the Express handlers of [server.js]
    ([/api/generate-signed-url], [/api/validate-token], [/api/stats] and
    [/media/*]) together with the JavaScript primitives they rely on
    ([RegExp.prototype.test], [parseInt], [Number] to string conversion,
    [String.prototype.replace], [Buffer.toString('hex')],
    [Date.prototype.toISOString]).

    [server.js] holds two revisions of the server.  Their validators and
    their generate, validate and stats handlers are the same, except for the
    host of the signed URL; only the second revision has the media endpoint
    that its signed URLs point to.  The embedding follows the second.

    Conventions of the embedding.
    - A JavaScript string is a Rocq [string]; a character stands for one code
      unit in the Latin-1 range.  Every character class of the two regular
      expressions and every digit of [parseInt] is ASCII, and without the [u]
      flag a non-ASCII code unit never case-folds onto an ASCII one, so wider
      code units would be rejected exactly as the Latin-1 ones are.
    - A query parameter is an [option string]: [None] is [undefined].
    - A JavaScript number that the handlers compute is an integer or [NaN];
      it is kept exact in [Z].  The handlers only compare such a number with
      the current time, subtract the current time from it, and turn it into a
      [Date]: the comparison is unaffected by rounding to a double, and a
      [Date] is valid only for magnitudes far inside the range where doubles
      are exact, so the exact value and the rounded one give the same answer.
    - [Date.now()] is an input of the handler, one value per call in the
      source, in milliseconds.
    - [urlStore], the module-level [Map], is threaded through the handlers as
      a [gmap string tokenData]; only its size and its entries are observed,
      never its iteration order.
    - Fields of the JSON answers that are pure presentation (ISO renderings
      of the current time, the simulated media type and file size, uptime)
      are left out. *)

From Stdlib Require Import ZArith Ascii String Lia.
From Stdlib.Strings Require Import Byte.
From stdpp Require Import base gmap strings list.

Local Open Scope Z_scope.

(* ====================================================================== *)
(** * JavaScript primitives used by the handlers                           *)
(* ====================================================================== *)

Module JS.

(** ** Truthiness of a query parameter: [!v] *)

Definition is_empty (s : string) : bool :=
  match s with EmptyString => true | String _ _ => false end.

Definition falsy (v : option string) : bool :=
  match v with None => true | Some s => is_empty s end.

(** ** Numbers: an integer or [NaN] *)

Inductive num := NaN | Num (z : Z).

(** [a > b] for an integer [a]; a comparison with [NaN] is false. *)
Definition gt (a : Z) (b : num) : bool :=
  match b with NaN => false | Num z => z <? a end.

Definition sub (a : num) (b : Z) : num :=
  match a with NaN => NaN | Num z => Num (z - b) end.

Definition mul (a : num) (b : Z) : num :=
  match a with NaN => NaN | Num z => Num (z * b) end.

(** [Math.floor(t / 1000)] for an integer [t]. *)
Definition floor_div (t d : Z) : Z := Z.div t d.

(** ** [parseInt(string)] with the radix left undefined (ECMA-262, 19.2.5) *)

Definition code (c : ascii) : Z := Z.of_N (N_of_ascii c).

(** White space and line terminators of the Latin-1 range. *)
Definition is_white_space (c : ascii) : bool :=
  ((9 <=? code c) && (code c <=? 13)) || (code c =? 32) || (code c =? 160).

Fixpoint trim_start (s : string) : string :=
  match s with
  | String c s' => if is_white_space c then trim_start s' else s
  | EmptyString => s
  end.

Definition digit_value (c : ascii) : option Z :=
  let n := code c in
  if (48 <=? n) && (n <=? 57) then Some (n - 48)
  else if (97 <=? n) && (n <=? 122) then Some (n - 87)
  else if (65 <=? n) && (n <=? 90) then Some (n - 55)
  else None.

Definition radix_digit (R : Z) (c : ascii) : option Z :=
  match digit_value c with
  | Some d => if d <? R then Some d else None
  | None => None
  end.

(** Value of the longest prefix of radix-[R] digits, most significant
    digit first. *)
Fixpoint digits_value (R : Z) (s : string) (acc : Z) : Z :=
  match s with
  | String c s' =>
      match radix_digit R c with
      | Some d => digits_value R s' (acc * R + d)
      | None => acc
      end
  | EmptyString => acc
  end.

Definition starts_with_digit (R : Z) (s : string) : bool :=
  match s with
  | String c _ => match radix_digit R c with Some _ => true | None => false end
  | EmptyString => false
  end.

Definition strip_sign (s : string) : Z * string :=
  match s with
  | String "-" r => (-1, r)
  | String "+" r => (1, r)
  | _ => (1, s)
  end.

Definition strip_prefix (s : string) : Z * string :=
  match s with
  | String "0" (String "x" r) => (16, r)
  | String "0" (String "X" r) => (16, r)
  | _ => (10, s)
  end.

Definition parseInt (s : string) : num :=
  let '(sign, s1) := strip_sign (trim_start s) in
  let '(R, s2) := strip_prefix s1 in
  if starts_with_digit R s2 then Num (sign * digits_value R s2 0) else NaN.

(** Strings of decimal digits. *)
Definition is_decimal (c : ascii) : Prop := 48 ≤ code c ≤ 57.

Fixpoint all_decimal (s : string) : Prop :=
  match s with
  | EmptyString => True
  | String c s' => is_decimal c ∧ all_decimal s'
  end.

(** ** Number to string, as a template literal does for an integer of
    magnitude below 1e21, which every time value is: decimal digits, a
    leading minus sign for negative values. *)

Definition digit_char (d : Z) : ascii := ascii_of_N (Z.to_N (48 + d)).

Fixpoint digits_of (fuel : nat) (n : Z) (acc : string) : string :=
  match fuel with
  | O => acc
  | S fuel' =>
      let acc' := String (digit_char (n mod 10)) acc in
      if n <? 10 then acc' else digits_of fuel' (n / 10) acc'
  end.

Definition num_to_string (z : Z) : string :=
  if z <? 0
  then String "-" (digits_of (S (Z.to_nat (Z.log2 (- z)))) (- z) EmptyString)
  else digits_of (S (Z.to_nat (Z.log2 z))) z EmptyString.

(** ** [s.replace(pat, '')] for a string pattern: the first occurrence of
    [pat] is removed. *)

Fixpoint drop_chars (n : nat) (s : string) : string :=
  match n, s with
  | S n', String _ s' => drop_chars n' s'
  | _, _ => s
  end.

Fixpoint remove_first (pat s : string) : string :=
  if String.prefix pat s then drop_chars (String.length pat) s
  else match s with
       | String c s' => String c (remove_first pat s')
       | EmptyString => s
       end.

(** ** [buf.toString('hex')] *)

Definition hex_digit (n : N) : ascii :=
  match String.get (N.to_nat n) "0123456789abcdef" with
  | Some c => c
  | None => "0"%char
  end.

Definition hex_of_byte (b : byte) : string :=
  let n := Byte.to_N b in
  String (hex_digit (N.div n 16)) (String (hex_digit (N.modulo n 16)) EmptyString).

Fixpoint toString_hex (buf : list byte) : string :=
  match buf with
  | [] => EmptyString
  | b :: buf' => hex_of_byte b +:+ toString_hex buf'
  end.

(** Reading a hex rendering back, two digits per byte. *)
Definition byte_of_hex (h l : ascii) : option byte :=
  match digit_value h, digit_value l with
  | Some a, Some b => Byte.of_N (Z.to_N (a * 16 + b))
  | _, _ => None
  end.

Fixpoint bytes_of_hex (s : string) : option (list byte) :=
  match s with
  | EmptyString => Some []
  | String h (String l s') =>
      match byte_of_hex h l, bytes_of_hex s' with
      | Some b, Some bs => Some (b :: bs)
      | _, _ => None
      end
  | String _ EmptyString => None
  end.

(** ** [crypto.randomBytes(n)]: the next [n] bytes of the entropy source,
    which is taken to be available. *)

Definition randomBytes (n : nat) (entropy : nat → byte) : list byte :=
  map entropy (seq 0 n).

(** ** [new Date(t).toISOString()]

    A [Date] holds a time value only within 8.64e15 milliseconds of the
    epoch (TimeClip); outside of it, and for [NaN], the date is invalid and
    [toISOString] throws a [RangeError].  The rendering is represented by
    the time value it renders; [None] is the exception. *)

Definition max_time_value : Z := 8640000000000000.

Definition Date_toISOString (t : num) : option Z :=
  match t with
  | NaN => None
  | Num ms => if (- max_time_value <=? ms) && (ms <=? max_time_value)
              then Some ms else None
  end.

End JS.

(* ====================================================================== *)
(** * Regular expressions and [RegExp.prototype.test]                      *)
(* ====================================================================== *)

Module Regex.

(** The fragment of the pattern language the two patterns of [server.js]
    are written in.  An atom is a set of characters. *)
Inductive regex :=
| Void
| Eps
| Class (p : ascii → bool)
| Cat (r1 r2 : regex)
| Alt (r1 r2 : regex)
| Star (r : regex).

(** [r+] *)
Definition Plus (r : regex) : regex := Cat r (Star r).

(** [r{0,n}] *)
Fixpoint Upto (r : regex) (n : nat) : regex :=
  match n with
  | O => Eps
  | S n' => Alt Eps (Cat r (Upto r n'))
  end.

(** [r{n}] followed by [k] *)
Fixpoint Times (r : regex) (n : nat) (k : regex) : regex :=
  match n with
  | O => k
  | S n' => Cat r (Times r n' k)
  end.

(** [r{lo,hi}] *)
Definition Repeat (r : regex) (lo hi : nat) : regex :=
  Times r lo (Upto r (hi - lo)).

(** Case folding of the [i] flag (Canonicalize without the [u] flag):
    a character is compared through its upper-case form. *)
Definition is_lower (c : ascii) : bool := (97 <=? JS.code c) && (JS.code c <=? 122).
Definition is_upper (c : ascii) : bool := (65 <=? JS.code c) && (JS.code c <=? 90).

Definition to_upper (c : ascii) : ascii :=
  if is_lower c then ascii_of_N (Z.to_N (JS.code c - 32)) else c.
Definition to_lower (c : ascii) : ascii :=
  if is_upper c then ascii_of_N (Z.to_N (JS.code c + 32)) else c.

(** A character set under the [i] flag: [c] matches when some member of
    the set has the same canonical form. *)
Definition fold_case (p : ascii → bool) (c : ascii) : bool :=
  p c || p (to_upper c) || p (to_lower c).

(** A literal character, and a literal word, under the [i] flag. *)
Definition Chr_i (c : ascii) : regex := Class (fold_case (Ascii.eqb c)).

Fixpoint Word_i (w : string) : regex :=
  match w with
  | EmptyString => Eps
  | String c w' => Cat (Chr_i c) (Word_i w')
  end.

(** [(w1|w2|...)] *)
Fixpoint Alts_i (ws : list string) : regex :=
  match ws with
  | [] => Void
  | w :: ws' => Alt (Word_i w) (Alts_i ws')
  end.

(** Matching by derivatives. *)
Fixpoint nullable (r : regex) : bool :=
  match r with
  | Void => false
  | Eps => true
  | Class _ => false
  | Cat r1 r2 => nullable r1 && nullable r2
  | Alt r1 r2 => nullable r1 || nullable r2
  | Star _ => true
  end.

Fixpoint deriv (c : ascii) (r : regex) : regex :=
  match r with
  | Void => Void
  | Eps => Void
  | Class p => if p c then Eps else Void
  | Cat r1 r2 =>
      if nullable r1 then Alt (Cat (deriv c r1) r2) (deriv c r2)
      else Cat (deriv c r1) r2
  | Alt r1 r2 => Alt (deriv c r1) (deriv c r2)
  | Star r1 => Cat (deriv c r1) (Star r1)
  end.

Fixpoint matches (r : regex) (w : list ascii) : bool :=
  match w with
  | [] => nullable r
  | c :: w' => matches (deriv c r) w'
  end.

(** [/^r$/.test(s)]: the whole of [s] is matched. *)
Definition test (r : regex) (s : string) : bool :=
  matches r (list_ascii_of_string s).

(** Two characters equal under the [i] flag, and a word equal to a
    literal word under the [i] flag. *)
Definition eq_i (c x : ascii) : bool := fold_case (Ascii.eqb c) x.

Fixpoint word_eq_i (s : string) (w : list ascii) : bool :=
  match s, w with
  | EmptyString, [] => true
  | String c s', x :: w' => eq_i c x && word_eq_i s' w'
  | _, _ => false
  end.

(** A word without upper-case letters. *)
Fixpoint no_upper (s : string) : bool :=
  match s with
  | EmptyString => true
  | String c s' => negb (is_upper c) && no_upper s'
  end.

(** Exhaustive check of a property of characters. *)
Definition all_bool (f : bool → bool) : bool := f true && f false.

Definition all_ascii (f : ascii → bool) : bool :=
  all_bool (λ b0, all_bool (λ b1, all_bool (λ b2, all_bool (λ b3,
  all_bool (λ b4, all_bool (λ b5, all_bool (λ b6, all_bool (λ b7,
    f (Ascii b0 b1 b2 b3 b4 b5 b6 b7))))))))).

(** The language of a pattern, declaratively. *)
Inductive lang : regex → list ascii → Prop :=
| L_eps : lang Eps []
| L_class p c : p c = true → lang (Class p) [c]
| L_cat r1 r2 w1 w2 : lang r1 w1 → lang r2 w2 → lang (Cat r1 r2) (w1 ++ w2)
| L_alt_l r1 r2 w : lang r1 w → lang (Alt r1 r2) w
| L_alt_r r1 r2 w : lang r2 w → lang (Alt r1 r2) w
| L_star_nil r : lang (Star r) []
| L_star_cons r w1 w2 : lang r w1 → lang (Star r) w2 → lang (Star r) (w1 ++ w2).

End Regex.

(* ====================================================================== *)
(** * The server                                                           *)
(* ====================================================================== *)

(** The value [urlStore] keeps per token. [expires] is in seconds,
    [createdAt] in milliseconds. *)
Record tokenData := {
  filePath : string;
  userId : string;
  expires : Z;
  createdAt : Z
}.

(** [const urlStore = new Map()] *)
Abbreviation urlStore := (gmap string tokenData).

(** [crypto.randomBytes(32).toString('hex')] *)
Definition generateToken (entropy : nat → byte) : string :=
  JS.toString_hex (JS.randomBytes 32 entropy).

(** [Math.floor(Date.now() / 1000) + (2 * 60)] *)
Definition getExpiryTimestamp (now : Z) : Z :=
  JS.floor_div now 1000 + 2 * 60.

Definition in_range (lo hi c : ascii) : bool :=
  (JS.code lo <=? JS.code c) && (JS.code c <=? JS.code hi).

(** [[a-zA-Z0-9\/\-_.]] *)
Definition path_class (c : ascii) : bool :=
  in_range "a" "z" c || in_range "A" "Z" c || in_range "0" "9" c
  || Ascii.eqb c "/" || Ascii.eqb c "-" || Ascii.eqb c "_" || Ascii.eqb c ".".

(** [[a-zA-Z0-9_]] *)
Definition userId_class (c : ascii) : bool :=
  in_range "a" "z" c || in_range "A" "Z" c || in_range "0" "9" c
  || Ascii.eqb c "_".

Definition media_extensions : list string :=
  ["mp4"; "mp3"; "wav"; "avi"; "mov"; "pdf"; "jpg"; "jpeg"; "png"].

(** [/^\/[a-zA-Z0-9\/\-_.]+\.(mp4|mp3|wav|avi|mov|pdf|jpg|jpeg|png)$/i] *)
Definition pathRegex : Regex.regex :=
  Regex.Cat (Regex.Chr_i "/")
    (Regex.Cat (Regex.Plus (Regex.Class (Regex.fold_case path_class)))
       (Regex.Cat (Regex.Chr_i ".") (Regex.Alts_i media_extensions))).

Definition isValidFilePath (filePath : string) : bool :=
  Regex.test pathRegex filePath.

(** [/^[a-zA-Z0-9_]{3,50}$/] *)
Definition userIdRegex : Regex.regex :=
  Regex.Repeat (Regex.Class userId_class) 3 50.

Definition isValidUserId (userId : string) : bool :=
  Regex.test userIdRegex userId.

(** ** [GET /api/generate-signed-url] *)

Record metadata := {
  meta_filePath : string;
  meta_userId : string;
  meta_expiresAt : Z
}.

Inductive generate_response :=
| GenError (status : Z) (error : string)
| GenOk (signedUrl : string) (meta : metadata).

(** The value of a parameter that has passed the [!v] test. *)
Definition str (v : option string) : string := default EmptyString v.

Definition url_origin : string :=
  "https://candidate-001-powerofaum-module-sig-five.vercel.app".

(** The template literal that builds [signedUrl]. *)
Definition signed_url (filePath token : string) (expires : Z) (userId : string) : string :=
  url_origin +:+ "/media" +:+ filePath +:+ "?token=" +:+ token
  +:+ "&expires=" +:+ JS.num_to_string expires +:+ "&userId=" +:+ userId.

(** The cleanup loop: every entry with [value.expires < currentTime] is
    deleted. *)
Definition cleanup (currentTime : Z) (store : urlStore) : urlStore :=
  filter (λ kv, ¬ (expires kv.2 < currentTime)) store.

(** The handler reads the clock three times: in [getExpiryTimestamp], for
    [createdAt], and for the cleanup loop. *)
Record generate_env := {
  entropy : nat → byte;
  now_expiry : Z;
  now_created : Z;
  now_cleanup : Z
}.

Definition generate_signed_url (q_filePath q_userId : option string)
    (env : generate_env) (store : urlStore) : generate_response * urlStore :=
  if JS.falsy q_filePath then
    (GenError 400 "Missing required parameter: filePath", store)
  else if JS.falsy q_userId then
    (GenError 400 "Missing required parameter: userId", store)
  else if negb (isValidFilePath (str q_filePath)) then
    (GenError 400 "Invalid filePath format. Must be a valid path to a media file.", store)
  else if negb (isValidUserId (str q_userId)) then
    (GenError 400 "Invalid userId format. Must be alphanumeric with underscores, 3-50 characters.", store)
  else
    let token := generateToken (entropy env) in
    let expires := getExpiryTimestamp (now_expiry env) in
    let signedUrl := signed_url (str q_filePath) token expires (str q_userId) in
    let store1 :=
      <[token := {| filePath := str q_filePath; userId := str q_userId;
                    expires := expires; createdAt := now_created env |}]> store in
    let currentTime := JS.floor_div (now_cleanup env) 1000 in
    let store2 := cleanup currentTime store1 in
    (GenOk signedUrl {| meta_filePath := str q_filePath;
                        meta_userId := str q_userId;
                        meta_expiresAt := expires |},
     store2).

(** ** [GET /api/validate-token] *)

Inductive validate_response :=
| ValError (status : Z) (error : string)
| ValInvalid (reason : string)
| ValValid (v_filePath v_userId : string) (v_expiresAt v_remainingTime : Z).

Definition validate_token (q_token : option string) (now : Z)
    (store : urlStore) : validate_response * urlStore :=
  if JS.falsy q_token then (ValError 400 "Missing token parameter", store)
  else
    let currentTime := JS.floor_div now 1000 in
    match store !! str q_token with
    | None => (ValInvalid "Token not found", store)
    | Some tokenData =>
        if expires tokenData <? currentTime then
          (ValInvalid "Token expired", delete (str q_token) store)
        else
          (ValValid (filePath tokenData) (userId tokenData) (expires tokenData)
             (expires tokenData - currentTime),
           store)
    end.

(** ** [GET /api/stats] *)

Record stats_response := {
  totalTokensGenerated : nat;
  activeTokens : nat
}.

(** The counting loop: one increment per entry with
    [value.expires >= currentTime]. *)
Definition count_active (currentTime : Z) (store : urlStore) : nat :=
  size (filter (λ kv : string * tokenData, currentTime ≤ expires kv.2) store).

Definition stats (now : Z) (store : urlStore) : stats_response :=
  let currentTime := JS.floor_div now 1000 in
  {| totalTokensGenerated := size store;
     activeTokens := count_active currentTime store |}.

(** ** [GET /media/*] *)

Inductive media_response :=
| MediaError (status : Z) (error : string)
| MediaExpired (expiredAt : Z)
| MediaGranted (a_filePath a_userId : string) (remainingTime : JS.num) (a_expiresAt : Z).

(** [path] is [req.path].  An exception thrown while the answer is built
    is caught by the handler's [catch], which answers 500; a deletion done
    before the exception stays done. *)
Definition media (path : string) (q_token q_expires q_userId : option string)
    (now : Z) (store : urlStore) : media_response * urlStore :=
  let filePath_req := JS.remove_first "/media" path in
  if JS.falsy q_token || JS.falsy q_expires || JS.falsy q_userId then
    (MediaError 400 "Invalid signed URL: Missing required parameters", store)
  else
    match store !! str q_token with
    | None => (MediaError 401 "Invalid or expired token", store)
    | Some tokenData =>
        let currentTime := JS.floor_div now 1000 in
        let expiryTime := JS.parseInt (str q_expires) in
        if JS.gt currentTime expiryTime then
          let store1 := delete (str q_token) store in
          match JS.Date_toISOString (JS.mul expiryTime 1000) with
          | Some expiredAt => (MediaExpired expiredAt, store1)
          | None => (MediaError 500 "Internal server error while accessing media", store1)
          end
        else if negb (String.eqb (filePath tokenData) filePath_req)
                || negb (String.eqb (userId tokenData) (str q_userId)) then
          (MediaError 403 "Access denied", store)
        else
          let remainingTime := JS.sub expiryTime currentTime in
          match JS.Date_toISOString (JS.mul expiryTime 1000) with
          | Some expiresAt =>
              (MediaGranted filePath_req (str q_userId) remainingTime expiresAt, store)
          | None => (MediaError 500 "Internal server error while accessing media", store)
          end
    end.

(** ** Runs of the server: requests handled one after the other, starting
    from the empty store of a fresh process. *)

Inductive request :=
| ReqGenerate (q_filePath q_userId : option string) (env : generate_env)
| ReqValidate (q_token : option string) (now : Z)
| ReqStats (now : Z)
| ReqMedia (path : string) (q_token q_expires q_userId : option string) (now : Z).

Inductive response :=
| RespGenerate (r : generate_response)
| RespValidate (r : validate_response)
| RespStats (r : stats_response)
| RespMedia (r : media_response).

Definition handle (req : request) (store : urlStore) : response * urlStore :=
  match req with
  | ReqGenerate f u env =>
      let '(r, s) := generate_signed_url f u env store in (RespGenerate r, s)
  | ReqValidate t now =>
      let '(r, s) := validate_token t now store in (RespValidate r, s)
  | ReqStats now => (RespStats (stats now store), store)
  | ReqMedia p t e u now =>
      let '(r, s) := media p t e u now store in (RespMedia r, s)
  end.

Fixpoint run (reqs : list request) (store : urlStore) : list response * urlStore :=
  match reqs with
  | [] => ([], store)
  | req :: reqs' =>
      let '(r, s) := handle req store in
      let '(rs, s') := run reqs' s in
      (r :: rs, s')
  end.

(** The number of [urlStore.set] calls a run executes: the handler of
    [/api/generate-signed-url] calls it once, exactly when it answers with
    success, and no other handler calls it. *)
Definition is_insertion (r : response) : bool :=
  match r with RespGenerate (GenOk _ _) => true | _ => false end.

Definition insertions (rs : list response) : nat :=
  length (filter (λ r, is_insertion r = true) rs).

(** The stores a process can hold. *)
Definition reachable (store : urlStore) : Prop :=
  ∃ reqs, (run reqs ∅).2 = store.

(** What every entry of a reachable store satisfies: its key is a token
    as [generateToken] makes them, and its binding passed both validators. *)
Definition store_wf (store : urlStore) : Prop :=
  map_Forall (λ token d,
    String.length token = 64%nat
    ∧ isValidFilePath (filePath d) = true
    ∧ isValidUserId (userId d) = true) store.

(** A clock reading whose expiry, two minutes later, is still a date that
    [Date] can hold. *)
Definition clock_ok (now : Z) : Prop :=
  - JS.max_time_value ≤ now ≤ JS.max_time_value - 120000.

(** The largest expiry, in seconds, that [new Date(expiry * 1000)] holds. *)
Definition max_expiry : Z := 8640000000000.

(** ** A sample process, used to exercise the statements below *)

Definition sample_entropy (n : nat) : byte :=
  default Byte.x00 (Byte.of_N (N.of_nat (7 * n + 3))).

(** All three clock readings of one request fall on the same instant. *)
Definition env_at (now : Z) : generate_env :=
  {| entropy := sample_entropy; now_expiry := now; now_created := now;
     now_cleanup := now |}.

Definition sample_token : string := generateToken sample_entropy.

Definition sample_mint : request :=
  ReqGenerate (Some "/videos/intro.mp4") (Some "USER_001") (env_at 1700000000000).

(** The store after one successful mint at second 1700000000; the entry
    expires at second 1700000120. *)
Definition sample_store : urlStore := (run [sample_mint] ∅).2.

(* ====================================================================== *)
(** * The shapes of the specification                                      *)
(* ====================================================================== *)

(** The two input shapes in the words of the specification, stated without
    patterns, to be compared with [isValidFilePath] and [isValidUserId]. *)
Module Spec.

Definition is_letter (c : ascii) : bool :=
  in_range "a" "z" c || in_range "A" "Z" c.

Definition is_digit (c : ascii) : bool := in_range "0" "9" c.

(** A path-safe character: a letter, a digit, or one of [/ - _ .] *)
Definition path_safe (c : ascii) : bool :=
  is_letter c || is_digit c
  || Ascii.eqb c "/" || Ascii.eqb c "-" || Ascii.eqb c "_" || Ascii.eqb c ".".

(** An identifier character: alphanumeric or underscore. *)
Definition identifier_char (c : ascii) : bool :=
  is_letter c || is_digit c || Ascii.eqb c "_".

Definition lower_case (w : list ascii) : string :=
  string_of_list_ascii (map Regex.to_lower w).

Definition allowed_extensions : list string :=
  ["mp4"; "mp3"; "wav"; "avi"; "mov"; "pdf"; "jpg"; "jpeg"; "png"].

(** The media-path shape word for word: begins with a path separator,
    contains only path-safe characters, ends with an extension of the
    allow-list in any case. *)
Definition ends_with_extension (w : list ascii) : Prop :=
  ∃ base ext : list ascii,
    w = base ++ "."%char :: ext ∧ lower_case ext ∈ allowed_extensions.

Definition media_path_words (s : string) : Prop :=
  (∃ rest, list_ascii_of_string s = "/"%char :: rest)
  ∧ Forall (λ c, path_safe c = true) (list_ascii_of_string s)
  ∧ ends_with_extension (list_ascii_of_string s).

(** The media-path shape the pattern accepts: a path separator, a
    non-empty stem of path-safe characters, a dot, and an extension of the
    allow-list in any case. *)
Definition media_path_shape (s : string) : Prop :=
  ∃ stem ext : list ascii,
    list_ascii_of_string s = "/"%char :: stem ++ "."%char :: ext
    ∧ stem ≠ []
    ∧ Forall (λ c, path_safe c = true) stem
    ∧ lower_case ext ∈ allowed_extensions.

(** The identifier shape: 3 to 50 identifier characters. *)
Definition identifier_shape (s : string) : Prop :=
  (3 ≤ String.length s ≤ 50)%nat
  ∧ Forall (λ c, identifier_char c = true) (list_ascii_of_string s).

End Spec.

(* ====================================================================== *)
(** * The media type reported with a grant                                 *)
(* ====================================================================== *)

(** String and array methods used to classify the served file. *)
Module JSString.

(** [s.toLowerCase()], character by character on the Latin-1 range: the
    letters [A-Z] and the accented capitals 0xC0-0xDE (0xD7, the
    multiplication sign, apart) move 32 places up. *)
Definition lower_char (c : ascii) : ascii :=
  let n := JS.code c in
  if ((65 <=? n) && (n <=? 90))
     || ((192 <=? n) && (n <=? 222) && negb (n =? 215))
  then ascii_of_N (Z.to_N (n + 32)) else c.

Fixpoint toLowerCase (s : string) : string :=
  match s with
  | EmptyString => EmptyString
  | String c s' => String (lower_char c) (toLowerCase s')
  end.

(** [s.split(sep)] for a separator of one character: the pieces between
    the separators, a single empty piece for the empty string. *)
Fixpoint split (sep : ascii) (s : string) : list string :=
  match s with
  | EmptyString => [EmptyString]
  | String c s' =>
      if Ascii.eqb c sep then EmptyString :: split sep s'
      else match split sep s' with
           | piece :: pieces => String c piece :: pieces
           | [] => [String c EmptyString]
           end
  end.

(** [arr.pop()]: the last element, [None] being [undefined]. *)
Definition pop (arr : list string) : option string := last arr.

(** [arr.includes(x)] *)
Definition includes (arr : list string) (x : string) : bool :=
  existsb (String.eqb x) arr.

End JSString.

Definition getMediaType (extension : string) : string :=
  let videoTypes := ["mp4"; "avi"; "mov"; "webm"] in
  let audioTypes := ["mp3"; "wav"; "ogg"; "aac"] in
  let imageTypes := ["jpg"; "jpeg"; "png"; "gif"; "webp"] in
  let docTypes := ["pdf"; "doc"; "docx"] in
  if JSString.includes videoTypes extension then "video"
  else if JSString.includes audioTypes extension then "audio"
  else if JSString.includes imageTypes extension then "image"
  else if JSString.includes docTypes extension then "document"
  else "file".

(** [filePath.split('.').pop().toLowerCase()]; [None] is the [TypeError] of
    calling a method on [undefined]. *)
Definition fileExtension (filePath : string) : option string :=
  JSString.toLowerCase <$> JSString.pop (JSString.split "." filePath).

(** The [mediaType] field of a grant for [filePath]. *)
Definition mediaType (filePath : string) : option string :=
  getMediaType <$> fileExtension filePath.

(** Characters that delimit the parts of a URL or need escaping in one. *)
Definition url_delimiter (c : ascii) : bool :=
  existsb (Ascii.eqb c) (list_ascii_of_string "?&=#%+ ").

(** A letter or a digit. *)
Definition is_alnum (c : ascii) : bool := Spec.is_letter c || Spec.is_digit c.

(** The digits of a lower-case hex rendering. *)
Definition is_hex_char (c : ascii) : bool :=
  in_range "0" "9" c || in_range "a" "f" c.

Fixpoint string_forall (p : ascii → bool) (s : string) : bool :=
  match s with
  | EmptyString => true
  | String c s' => p c && string_forall p s'
  end.

(** Closed statements about concrete runs are settled by evaluation. *)
Ltac by_evaluation :=
  repeat match goal with |- _ ∧ _ => split end; vm_compute; reflexivity.

(* ====================================================================== *)
(** * Facts about the JavaScript primitives                                *)
(* ====================================================================== *)

Module JSFacts.
Import JS.

(** *** Strings *)

Lemma length_app (a b : string) :
  String.length (a +:+ b) = (String.length a + String.length b)%nat.
Proof. induction a as [|c a IH]; simpl; [done | by rewrite IH]. Qed.

Lemma list_ascii_app (a b : string) :
  list_ascii_of_string (a +:+ b) = list_ascii_of_string a ++ list_ascii_of_string b.
Proof. induction a as [|c a IH]; simpl; [done | by rewrite IH]. Qed.

Lemma length_list_ascii (a : string) :
  length (list_ascii_of_string a) = String.length a.
Proof. induction a as [|c a IH]; simpl; [done | by rewrite IH]. Qed.

Lemma is_empty_false (s : string) : is_empty s = false ↔ s ≠ EmptyString.
Proof. destruct s; simpl; split; congruence. Qed.

Lemma falsy_Some (s : string) : s ≠ EmptyString → falsy (Some s) = false.
Proof. intros H. simpl. by apply is_empty_false. Qed.

Lemma length_pos_nonempty (s : string) :
  (0 < String.length s)%nat → s ≠ EmptyString.
Proof. destruct s; simpl; [lia | done]. Qed.

(** *** [replace]: the route prefix is stripped from the path of a
    signed URL. *)

Lemma remove_first_media (filePath : string) :
  remove_first "/media" ("/media" +:+ filePath) = filePath.
Proof. destruct filePath; reflexivity. Qed.

(** *** Character codes *)

Lemma code_inj (c d : ascii) : code c = code d → c = d.
Proof.
  unfold code. intros H. apply N2Z.inj in H.
  rewrite <- (ascii_N_embedding c), <- (ascii_N_embedding d). by rewrite H.
Qed.

Lemma code_ascii_of (z : Z) :
  0 ≤ z < 256 → code (ascii_of_N (Z.to_N z)) = z.
Proof.
  intros H. unfold code. rewrite N_ascii_embedding by lia. lia.
Qed.

(** *** Decimal rendering and [parseInt] *)

Lemma digit_char_code (d : Z) : 0 ≤ d ≤ 9 → code (digit_char d) = 48 + d.
Proof. intros H. unfold digit_char. apply code_ascii_of. lia. Qed.

Lemma digit_char_decimal (d : Z) : 0 ≤ d ≤ 9 → is_decimal (digit_char d).
Proof. intros H. unfold is_decimal. rewrite digit_char_code; lia. Qed.

Lemma radix_digit_decimal (c : ascii) :
  is_decimal c → radix_digit 10 c = Some (code c - 48).
Proof.
  unfold is_decimal, radix_digit, digit_value. intros H.
  replace ((48 <=? code c) && (code c <=? 57)) with true
    by (symmetry; apply andb_true_iff; split; apply Z.leb_le; lia).
  replace (code c - 48 <? 10) with true by (symmetry; apply Z.ltb_lt; lia).
  done.
Qed.

Lemma radix_digit_digit_char (d : Z) :
  0 ≤ d ≤ 9 → radix_digit 10 (digit_char d) = Some d.
Proof.
  intros H. rewrite radix_digit_decimal by by apply digit_char_decimal.
  rewrite digit_char_code by done. f_equal. lia.
Qed.

Lemma digits_of_decimal (fuel : nat) (n : Z) (acc : string) :
  0 ≤ n → all_decimal acc → all_decimal (digits_of fuel n acc).
Proof.
  revert n acc. induction fuel as [|fuel IH]; intros n acc Hn Hacc; simpl; [done|].
  assert (is_decimal (digit_char (n mod 10))) as Hd.
  { apply digit_char_decimal. pose proof (Z.mod_pos_bound n 10). lia. }
  destruct (n <? 10).
  - by split.
  - apply IH; [apply Z.div_pos; lia | by split].
Qed.

Lemma digits_of_nonempty (fuel : nat) (n : Z) (acc : string) :
  digits_of (S fuel) n acc ≠ EmptyString.
Proof.
  revert n acc. induction fuel as [|fuel IH]; intros n acc.
  - simpl. by destruct (n <? 10).
  - change (digits_of (S (S fuel)) n acc) with
      (let acc' := String (digit_char (n mod 10)) acc in
       if n <? 10 then acc' else digits_of (S fuel) (n / 10) acc').
    simpl. destruct (n <? 10); [done | apply IH].
Qed.

(** Reading back the digits that [digits_of] wrote in front of [acc]. *)
Lemma digits_value_digits_of (fuel : nat) (n : Z) (acc : string) :
  0 ≤ n < 2 ^ Z.of_nat fuel →
  ∃ k, 0 ≤ k ∧ ∀ a,
    digits_value 10 (digits_of fuel n acc) a = digits_value 10 acc (a * 10 ^ k + n).
Proof.
  revert n acc. induction fuel as [|fuel IH]; intros n acc Hn.
  - simpl in Hn. exists 0. split; [lia|]. intros a. simpl.
    f_equal. lia.
  - simpl digits_of. destruct (Z.ltb_spec n 10) as [Hlt|Hge].
    + exists 1. split; [lia|]. intros a. simpl.
      rewrite Z.mod_small by lia.
      rewrite radix_digit_digit_char by lia. f_equal; lia.
    + assert (0 ≤ n / 10 < 2 ^ Z.of_nat fuel) as Hn'.
      { split; [apply Z.div_pos; lia|].
        apply Z.div_lt_upper_bound; [lia|].
        rewrite Nat2Z.inj_succ, Z.pow_succ_r in Hn by lia. lia. }
      destruct (IH (n / 10) (String (digit_char (n mod 10)) acc) Hn')
        as (k & Hk & IHk).
      exists (k + 1). split; [lia|]. intros a. rewrite IHk. simpl.
      pose proof (Z.mod_pos_bound n 10 ltac:(lia)) as Hm.
      rewrite radix_digit_digit_char by lia. f_equal.
      rewrite Z.pow_add_r by lia.
      pose proof (Z.div_mod n 10 ltac:(lia)). nia.
Qed.

Lemma trim_start_decimal (s : string) : all_decimal s → trim_start s = s.
Proof.
  destruct s as [|c s]; [done|]. intros [Hc _]. simpl.
  unfold is_decimal in Hc. unfold is_white_space.
  replace (9 <=? code c) with true by (symmetry; apply Z.leb_le; lia).
  replace (code c <=? 13) with false by (symmetry; apply Z.leb_gt; lia).
  replace (code c =? 32) with false by (symmetry; apply Z.eqb_neq; lia).
  replace (code c =? 160) with false by (symmetry; apply Z.eqb_neq; lia).
  done.
Qed.

Lemma not_decimal (c d : ascii) : is_decimal c → ¬ is_decimal d → c ≠ d.
Proof. intros Hc Hd ->. done. Qed.

Lemma strip_sign_decimal (s : string) : all_decimal s → strip_sign s = (1, s).
Proof.
  destruct s as [|c s]; [done|]. intros [Hc _]. unfold strip_sign.
  assert (c ≠ "-"%char) by (apply not_decimal; [done | unfold is_decimal, code; simpl; lia]).
  assert (c ≠ "+"%char) by (apply not_decimal; [done | unfold is_decimal, code; simpl; lia]).
  destruct c as [[] [] [] [] [] [] [] []]; done.
Qed.

Lemma strip_prefix_decimal (s : string) : all_decimal s → strip_prefix s = (10, s).
Proof.
  destruct s as [|c [|d s]]; intros H; unfold strip_prefix.
  - done.
  - destruct c as [[] [] [] [] [] [] [] []]; done.
  - destruct H as (_ & Hd & _).
    assert (d ≠ "x"%char) by (apply not_decimal; [done | unfold is_decimal, code; simpl; lia]).
    assert (d ≠ "X"%char) by (apply not_decimal; [done | unfold is_decimal, code; simpl; lia]).
    destruct c as [[] [] [] [] [] [] [] []]; try done;
      destruct d as [[] [] [] [] [] [] [] []]; done.
Qed.

Lemma starts_with_digit_decimal (s : string) :
  all_decimal s → s ≠ EmptyString → starts_with_digit 10 s = true.
Proof.
  destruct s as [|c s]; [done|]. intros [Hc _] _. simpl.
  by rewrite radix_digit_decimal.
Qed.

(** An all-digit, non-empty string parses to the value of its digits. *)
Lemma parseInt_decimal (s : string) :
  all_decimal s → s ≠ EmptyString → parseInt s = Num (digits_value 10 s 0).
Proof.
  intros Hs Hne. unfold parseInt.
  rewrite trim_start_decimal, strip_sign_decimal, strip_prefix_decimal by done.
  rewrite starts_with_digit_decimal by done. f_equal. lia.
Qed.

Lemma fuel_enough (z : Z) : 0 ≤ z → 0 ≤ z < 2 ^ Z.of_nat (S (Z.to_nat (Z.log2 z))).
Proof.
  intros H. split; [done|].
  rewrite Nat2Z.inj_succ, Z2Nat.id by apply Z.log2_nonneg.
  destruct (Z.eq_dec z 0) as [->|]; [done|].
  apply Z.log2_spec. lia.
Qed.

(** The number a signed URL carries is read back unchanged. *)
Lemma parseInt_num_to_string (z : Z) : parseInt (num_to_string z) = Num z.
Proof.
  unfold num_to_string. destruct (Z.ltb_spec z 0) as [Hneg|Hpos].
  - set (ds := digits_of _ (- z) EmptyString).
    assert (all_decimal ds) as Hds by (apply digits_of_decimal; [lia | done]).
    assert (ds ≠ EmptyString) as Hne by apply digits_of_nonempty.
    unfold parseInt.
    change (trim_start (String "-" ds)) with (String "-" ds).
    change (strip_sign (String "-" ds)) with (-1, ds). cbv beta iota.
    rewrite strip_prefix_decimal, starts_with_digit_decimal by done.
    destruct (digits_value_digits_of _ (- z) EmptyString (fuel_enough (- z) ltac:(lia)))
      as (k & _ & Hk).
    subst ds. rewrite Hk. simpl. f_equal; lia.
  - set (ds := digits_of _ z EmptyString).
    rewrite parseInt_decimal;
      [| apply digits_of_decimal; [lia | done] | apply digits_of_nonempty].
    destruct (digits_value_digits_of _ z EmptyString (fuel_enough z Hpos))
      as (k & _ & Hk).
    subst ds. rewrite Hk. simpl. f_equal; lia.
Qed.

(** *** Hex rendering *)

Lemma length_hex_of_byte (b : byte) : String.length (hex_of_byte b) = 2%nat.
Proof. done. Qed.

Lemma length_toString_hex (buf : list byte) :
  String.length (toString_hex buf) = (2 * length buf)%nat.
Proof.
  induction buf as [|b buf IH]; [done|].
  simpl toString_hex. rewrite length_app, IH, length_hex_of_byte. simpl. lia.
Qed.

Lemma length_randomBytes (n : nat) (entropy : nat → byte) :
  length (randomBytes n entropy) = n.
Proof. unfold randomBytes. by rewrite length_map, length_seq. Qed.

Lemma bytes_of_hex_toString_hex (buf : list byte) :
  bytes_of_hex (toString_hex buf) = Some buf.
Proof.
  induction buf as [|b buf IH]; [done|].
  simpl toString_hex. unfold hex_of_byte.
  change (bytes_of_hex (String ?h (String ?l EmptyString) +:+ ?r))
    with (match byte_of_hex h l, bytes_of_hex r with
          | Some b, Some bs => Some (b :: bs)
          | _, _ => None
          end).
  rewrite IH.
  replace (byte_of_hex _ _) with (Some b); [done|].
  by destruct b.
Qed.

(** The hex rendering loses nothing of the bytes it renders. *)
Lemma toString_hex_inj (a b : list byte) :
  toString_hex a = toString_hex b → a = b.
Proof.
  intros H. apply (f_equal bytes_of_hex) in H.
  rewrite !bytes_of_hex_toString_hex in H. congruence.
Qed.

End JSFacts.

(* ====================================================================== *)
(** * Facts about pattern matching                                         *)
(* ====================================================================== *)

Module RegexFacts.
Import Regex.

(** *** Inversion of the language of each pattern form *)

Lemma lang_void (w : list ascii) : lang Void w ↔ False.
Proof. split; [intros H; inversion H | done]. Qed.

Lemma lang_eps (w : list ascii) : lang Eps w ↔ w = [].
Proof. split; [intros H; by inversion H | intros ->; constructor]. Qed.

Lemma lang_class (p : ascii → bool) (w : list ascii) :
  lang (Class p) w ↔ ∃ c, w = [c] ∧ p c = true.
Proof.
  split.
  - intros H. inversion H; subst. eauto.
  - intros (c & -> & Hp). by constructor.
Qed.

Lemma lang_cat (r1 r2 : regex) (w : list ascii) :
  lang (Cat r1 r2) w ↔ ∃ w1 w2, w = w1 ++ w2 ∧ lang r1 w1 ∧ lang r2 w2.
Proof.
  split.
  - intros H. inversion H; subst. eauto.
  - intros (w1 & w2 & -> & H1 & H2). by constructor.
Qed.

Lemma lang_alt (r1 r2 : regex) (w : list ascii) :
  lang (Alt r1 r2) w ↔ lang r1 w ∨ lang r2 w.
Proof.
  split.
  - intros H. inversion H; subst; eauto.
  - intros [H|H]; [by apply L_alt_l | by apply L_alt_r].
Qed.

(** *** Correctness of matching by derivatives *)

Lemma nullable_lang (r : regex) : nullable r = true ↔ lang r [].
Proof.
  induction r as [| |p|r1 IH1 r2 IH2|r1 IH1 r2 IH2|r IH]; simpl.
  - rewrite lang_void. done.
  - rewrite lang_eps. done.
  - rewrite lang_class. split; [done | by intros (c & ? & _)].
  - rewrite andb_true_iff, IH1, IH2, lang_cat. split.
    + intros [H1 H2]. by exists [], [].
    + intros (w1 & w2 & Heq & H1 & H2). symmetry in Heq.
      apply app_eq_nil in Heq as [-> ->]. done.
  - rewrite orb_true_iff, IH1, IH2, lang_alt. done.
  - split; [constructor | done].
Qed.

Lemma deriv_sound (c : ascii) (r : regex) (w : list ascii) :
  lang (deriv c r) w → lang r (c :: w).
Proof.
  revert w. induction r as [| |p|r1 IH1 r2 IH2|r1 IH1 r2 IH2|r IH];
    simpl; intros w H.
  - by apply lang_void in H.
  - by apply lang_void in H.
  - destruct (p c) eqn:Hp; [|by apply lang_void in H].
    apply lang_eps in H as ->. by constructor.
  - assert (lang (Cat (deriv c r1) r2) w → lang (Cat r1 r2) (c :: w)) as Hcat.
    { intros (w1 & w2 & -> & H1 & H2)%lang_cat.
      apply (L_cat r1 r2 (c :: w1) w2); [by apply IH1 | done]. }
    destruct (nullable r1) eqn:Hn; [|by apply Hcat].
    apply lang_alt in H as [H|H]; [by apply Hcat|].
    apply (L_cat r1 r2 [] (c :: w)); [by apply nullable_lang | by apply IH2].
  - apply lang_alt in H as [H|H];
      [apply L_alt_l; by apply IH1 | apply L_alt_r; by apply IH2].
  - apply lang_cat in H as (w1 & w2 & -> & H1 & H2).
    apply (L_star_cons r (c :: w1) w2); [by apply IH | done].
Qed.

Lemma deriv_complete (r : regex) (w' : list ascii) :
  lang r w' → ∀ c w, w' = c :: w → lang (deriv c r) w.
Proof.
  induction 1 as [|p x Hp|r1 r2 w1 w2 H1 IH1 H2 IH2|r1 r2 w0 H0 IH0
                 |r1 r2 w0 H0 IH0|r|r w1 w2 H1 IH1 H2 IH2];
    intros c w Heq; simpl.
  - discriminate.
  - injection Heq as -> <-. rewrite Hp. constructor.
  - destruct w1 as [|x w1]; simpl in Heq.
    + apply nullable_lang in H1. rewrite H1. apply L_alt_r. by apply IH2.
    + injection Heq as -> <-.
      assert (lang (Cat (deriv c r1) r2) (w1 ++ w2)) as Hcat
        by (constructor; [by apply IH1 | done]).
      destruct (nullable r1); [by apply L_alt_l | done].
  - apply L_alt_l. by apply IH0.
  - apply L_alt_r. by apply IH0.
  - discriminate.
  - destruct w1 as [|x w1]; simpl in Heq.
    + by apply IH2.
    + injection Heq as -> <-. constructor; [by apply IH1 | done].
Qed.

(** The derivative matcher decides the language of the pattern. *)
Theorem matches_lang (r : regex) (w : list ascii) :
  matches r w = true ↔ lang r w.
Proof.
  revert r. induction w as [|c w IH]; intros r; simpl.
  - apply nullable_lang.
  - rewrite IH. split; [apply deriv_sound | intros H; by eapply deriv_complete].
Qed.

(** *** Languages of the pattern forms *)

Lemma lang_star_class (p : ascii → bool) (w : list ascii) :
  lang (Star (Class p)) w ↔ forallb p w = true.
Proof.
  split.
  - intros H. remember (Star (Class p)) as r eqn:Hr.
    induction H as [| | | | | |r0 w1 w2 H1 _ H2 IH2]; try discriminate; [done|].
    injection Hr as ->. apply lang_class in H1 as (c & -> & Hc).
    simpl. rewrite Hc. by apply IH2.
  - induction w as [|c w IH]; simpl; intros H; [constructor|].
    apply andb_true_iff in H as [Hc Hw].
    apply (L_star_cons _ [c] w); [by constructor | by apply IH].
Qed.

Lemma lang_plus_class (p : ascii → bool) (w : list ascii) :
  lang (Plus (Class p)) w ↔ w ≠ [] ∧ forallb p w = true.
Proof.
  unfold Plus. rewrite lang_cat. split.
  - intros (w1 & w2 & -> & H1 & H2).
    apply lang_class in H1 as (c & -> & Hc). apply lang_star_class in H2.
    split; [done|]. simpl. by rewrite Hc.
  - intros [Hne H]. destruct w as [|c w]; [done|]. simpl in H.
    apply andb_true_iff in H as [Hc Hw].
    exists [c], w. split; [done|]. split; [by constructor | by apply lang_star_class].
Qed.

Lemma lang_upto_class (p : ascii → bool) (n : nat) (w : list ascii) :
  lang (Upto (Class p) n) w ↔ (length w ≤ n)%nat ∧ forallb p w = true.
Proof.
  revert w. induction n as [|n IH]; intros w; simpl.
  - rewrite lang_eps. split.
    + intros ->. simpl. split; [lia | done].
    + intros [Hl _]. destruct w; [done | simpl in Hl; lia].
  - rewrite lang_alt, lang_eps, lang_cat. split.
    + intros [-> | (w1 & w2 & -> & H1 & H2)]; [simpl; split; [lia | done]|].
      apply lang_class in H1 as (c & -> & Hc). apply IH in H2 as [Hl Hw].
      simpl. rewrite Hc. split; [lia | done].
    + intros [Hl Hw]. destruct w as [|c w]; [by left|]. right.
      simpl in Hl, Hw. apply andb_true_iff in Hw as [Hc Hw].
      exists [c], w. split; [done|]. split; [by constructor|].
      apply IH. split; [lia | done].
Qed.

Lemma lang_times_class (p : ascii → bool) (n : nat) (k : regex) (w : list ascii) :
  lang (Times (Class p) n k) w ↔
  ∃ w1 w2, w = w1 ++ w2 ∧ length w1 = n ∧ forallb p w1 = true ∧ lang k w2.
Proof.
  revert w. induction n as [|n IH]; intros w; simpl.
  - split.
    + intros H. by exists [], w.
    + intros (w1 & w2 & -> & Hl & _ & H). by destruct w1.
  - rewrite lang_cat. split.
    + intros (v1 & v2 & -> & H1 & H2).
      apply lang_class in H1 as (c & -> & Hc).
      apply IH in H2 as (w1 & w2 & -> & Hl & Hw & Hk).
      exists (c :: w1), w2. simpl. rewrite Hc, Hl. done.
    + intros (w1 & w2 & -> & Hl & Hw & Hk).
      destruct w1 as [|c w1]; [done|]. simpl in Hl, Hw.
      apply andb_true_iff in Hw as [Hc Hw].
      exists [c], (w1 ++ w2). split; [done|]. split; [by constructor|].
      apply IH. exists w1, w2. repeat split; [lia | done | done].
Qed.

Lemma lang_repeat_class (p : ascii → bool) (lo hi : nat) (w : list ascii) :
  (lo ≤ hi)%nat →
  lang (Repeat (Class p) lo hi) w ↔
  (lo ≤ length w ≤ hi)%nat ∧ forallb p w = true.
Proof.
  intros Hle. unfold Repeat. rewrite lang_times_class. split.
  - intros (w1 & w2 & -> & Hl & Hw & Hk).
    apply lang_upto_class in Hk as [Hl2 Hw2].
    rewrite length_app, forallb_app, Hw, Hw2. split; [lia | done].
  - intros [Hl Hw].
    exists (take lo w), (drop lo w). rewrite take_drop.
    rewrite <- (take_drop lo w), forallb_app in Hw.
    apply andb_true_iff in Hw as [Hw1 Hw2].
    repeat split; [rewrite length_take; lia | done |].
    apply lang_upto_class. rewrite length_drop. split; [lia | done].
Qed.

Lemma lang_word_i (s : string) (w : list ascii) :
  lang (Word_i s) w ↔ word_eq_i s w = true.
Proof.
  revert w. induction s as [|c s IH]; intros w; simpl.
  - rewrite lang_eps. by destruct w.
  - rewrite lang_cat. split.
    + intros (w1 & w2 & -> & H1 & H2).
      apply lang_class in H1 as (x & -> & Hx). apply IH in H2.
      simpl. unfold eq_i. by rewrite Hx, H2.
    + destruct w as [|x w]; [done|]. intros H.
      apply andb_true_iff in H as [Hx Hw].
      exists [x], w. split; [done|]. split; [by constructor | by apply IH].
Qed.

Lemma lang_alts_i (ws : list string) (w : list ascii) :
  lang (Alts_i ws) w ↔ existsb (λ s, word_eq_i s w) ws = true.
Proof.
  induction ws as [|s ws IH]; simpl.
  - rewrite lang_void. done.
  - rewrite lang_alt, lang_word_i, IH, orb_true_iff. done.
Qed.

(** *** Exhaustive checks over characters *)

Lemma all_bool_spec (f : bool → bool) : all_bool f = true → ∀ b, f b = true.
Proof.
  unfold all_bool. intros H b. apply andb_true_iff in H as [H1 H2].
  by destruct b.
Qed.

Lemma all_ascii_spec (f : ascii → bool) : all_ascii f = true → ∀ c, f c = true.
Proof.
  intros H [b0 b1 b2 b3 b4 b5 b6 b7]. unfold all_ascii in H.
  apply (all_bool_spec _
    (all_bool_spec _ (all_bool_spec _ (all_bool_spec _ (all_bool_spec _
      (all_bool_spec _ (all_bool_spec _ (all_bool_spec _ H b0) b1) b2) b3) b4)
        b5) b6) b7).
Qed.

End RegexFacts.

(* ====================================================================== *)
(** * The two validators against the shapes of the specification           *)
(* ====================================================================== *)

Module ValidatorFacts.
Import Regex RegexFacts.

Lemma forallb_Forall (p : ascii → bool) (w : list ascii) :
  forallb p w = true ↔ Forall (λ c, p c = true) w.
Proof.
  induction w as [|c w IH]; simpl.
  - split; [constructor | done].
  - rewrite andb_true_iff, IH, Forall_cons. done.
Qed.

Lemma forallb_pointwise (p q : ascii → bool) (w : list ascii) :
  (∀ c, p c = q c) → forallb p w = forallb q w.
Proof. intros H. induction w as [|c w IH]; simpl; [done | by rewrite H, IH]. Qed.

(** The character classes are closed under case folding. *)
Lemma fold_case_path_class (c : ascii) :
  fold_case path_class c = Spec.path_safe c.
Proof.
  apply eq_sym, Bool.eqb_prop. revert c. apply all_ascii_spec.
  by vm_compute.
Qed.

Lemma userId_class_identifier (c : ascii) :
  userId_class c = Spec.identifier_char c.
Proof. reflexivity. Qed.

Lemma eq_i_slash (x : ascii) : eq_i "/" x = Ascii.eqb x "/".
Proof.
  apply eq_sym, Bool.eqb_prop. revert x. apply all_ascii_spec.
  by vm_compute.
Qed.

Lemma eq_i_dot (x : ascii) : eq_i "." x = Ascii.eqb x ".".
Proof.
  apply eq_sym, Bool.eqb_prop. revert x. apply all_ascii_spec.
  by vm_compute.
Qed.

(** Against a character that is not an upper-case letter, case folding
    compares the lower-case form. *)
Lemma eq_i_lower (c x : ascii) :
  is_upper c = false → eq_i c x = Ascii.eqb (to_lower x) c.
Proof.
  intros Hc.
  pose proof (all_ascii_spec
    (λ c, all_ascii (λ x,
       is_upper c || Bool.eqb (eq_i c x) (Ascii.eqb (to_lower x) c)))
    ltac:(by vm_compute) c) as H.
  pose proof (all_ascii_spec _ H x) as H'. simpl in H'.
  rewrite Hc in H'. by apply Bool.eqb_prop.
Qed.

Lemma word_eq_i_lower (s : string) (w : list ascii) :
  no_upper s = true → word_eq_i s w = true ↔ Spec.lower_case w = s.
Proof.
  unfold Spec.lower_case. revert w.
  induction s as [|c s IH]; intros w Hs; destruct w as [|x w]; simpl; try done.
  simpl in Hs. apply andb_true_iff in Hs as [Hc Hs].
  apply negb_true_iff in Hc.
  rewrite andb_true_iff, (IH w Hs), eq_i_lower, Ascii.eqb_eq by done.
  split; [by intros [-> ->] | intros [= -> ->]; done].
Qed.

Lemma existsb_word_eq_i (ws : list string) (w : list ascii) :
  forallb no_upper ws = true →
  existsb (λ s, word_eq_i s w) ws = true ↔ Spec.lower_case w ∈ ws.
Proof.
  induction ws as [|s ws IH]; intros Hws.
  - simpl. rewrite elem_of_nil. done.
  - cbn [forallb] in Hws. apply andb_true_iff in Hws as [Hs Hws].
    cbn [existsb]. rewrite orb_true_iff, word_eq_i_lower, IH, elem_of_cons by done.
    done.
Qed.

Lemma extension_allowed (w : list ascii) :
  existsb (λ s, word_eq_i s w) media_extensions = true ↔
  Spec.lower_case w ∈ Spec.allowed_extensions.
Proof. by apply existsb_word_eq_i. Qed.

(** The file-path pattern accepts exactly the media-path shape. *)
Theorem isValidFilePath_shape (s : string) :
  isValidFilePath s = true ↔ Spec.media_path_shape s.
Proof.
  unfold isValidFilePath, test, pathRegex, Spec.media_path_shape.
  rewrite matches_lang, lang_cat. split.
  - intros (w1 & w2 & Heq & H1 & H2).
    apply lang_class in H1 as (c & -> & Hc).
    apply lang_cat in H2 as (stem & w3 & -> & Hstem & H3).
    apply lang_plus_class in Hstem as [Hne Hstem].
    apply lang_cat in H3 as (w4 & ext & -> & H4 & Hext).
    apply lang_class in H4 as (d & -> & Hd).
    fold (eq_i "/" c) in Hc. fold (eq_i "." d) in Hd.
    rewrite eq_i_slash, Ascii.eqb_eq in Hc. rewrite eq_i_dot, Ascii.eqb_eq in Hd.
    subst c d. exists stem, ext. split; [done|]. split; [done|]. split.
    + apply forallb_Forall.
      by rewrite <- (forallb_pointwise _ _ stem fold_case_path_class).
    + by apply extension_allowed, lang_alts_i.
  - intros (stem & ext & Heq & Hne & Hstem & Hext).
    exists ["/"%char], (stem ++ "."%char :: ext). split; [done|]. split.
    { constructor. by vm_compute. }
    apply lang_cat. exists stem, ("."%char :: ext). split; [done|]. split.
    { apply lang_plus_class. split; [done|].
      apply forallb_Forall in Hstem.
      by rewrite (forallb_pointwise _ _ stem fold_case_path_class). }
    apply lang_cat. exists ["."%char], ext. split; [done|]. split.
    { constructor. by vm_compute. }
    by apply lang_alts_i, extension_allowed.
Qed.

(** The identifier pattern accepts exactly the identifier shape. *)
Theorem isValidUserId_shape (s : string) :
  isValidUserId s = true ↔ Spec.identifier_shape s.
Proof.
  unfold isValidUserId, test, userIdRegex, Spec.identifier_shape.
  rewrite matches_lang, lang_repeat_class by lia.
  rewrite JSFacts.length_list_ascii, forallb_Forall. done.
Qed.

Lemma path_safe_lower (c : ascii) :
  Spec.path_safe (to_lower c) = true → Spec.path_safe c = true.
Proof.
  pose proof (all_ascii_spec
    (λ c, implb (Spec.path_safe (to_lower c)) (Spec.path_safe c))
    ltac:(by vm_compute) c) as H.
  simpl in H. intros Hc. by rewrite Hc in H.
Qed.

Lemma allowed_extension_path_safe (ext : list ascii) :
  Spec.lower_case ext ∈ Spec.allowed_extensions →
  Forall (λ c, Spec.path_safe c = true) ext.
Proof.
  intros Hin.
  assert (Forall (λ c, Spec.path_safe c = true) (map to_lower ext)) as H.
  { unfold Spec.lower_case in Hin.
    rewrite <- (list_ascii_of_string_of_list_ascii (map to_lower ext)).
    revert Hin. generalize (string_of_list_ascii (map to_lower ext)).
    intros e He. unfold Spec.allowed_extensions in He.
    repeat (apply elem_of_cons in He as [->|He]; [by repeat constructor|]).
    by apply elem_of_nil in He. }
  clear Hin. induction ext as [|c ext IH]; [constructor|].
  simpl in H. apply Forall_cons in H as [Hc H].
  constructor; [by apply path_safe_lower | by apply IH].
Qed.

(** The shape in the words of the specification is the shape the pattern
    accepts, plus the paths that are a separator, a dot and an allowed
    extension with nothing in between. *)
Theorem media_path_words_shape (s : string) :
  Spec.media_path_words s ↔
  Spec.media_path_shape s
  ∨ ∃ ext, list_ascii_of_string s = "/"%char :: "."%char :: ext
           ∧ Spec.lower_case ext ∈ Spec.allowed_extensions.
Proof.
  unfold Spec.media_path_words, Spec.media_path_shape, Spec.ends_with_extension.
  split.
  - intros ((rest & Hrest) & Hsafe & (base & ext & Heq & Hext)).
    destruct base as [|b stem].
    { rewrite Hrest in Heq. discriminate Heq. }
    rewrite Heq in Hrest, Hsafe. injection Hrest as -> _.
    destruct stem as [|c stem]; [right; by exists ext|]. left.
    exists (c :: stem), ext. split; [done|]. split; [done|]. split; [|done].
    simpl in Hsafe. apply Forall_cons in Hsafe as [_ Hsafe].
    change (c :: stem ++ "."%char :: ext) with ((c :: stem) ++ "."%char :: ext)
      in Hsafe.
    by apply Forall_app in Hsafe as [? _].
  - intros [(stem & ext & Heq & Hne & Hstem & Hext)|(ext & Heq & Hext)].
    + split; [by eexists|]. split.
      * rewrite Heq. constructor; [done|]. apply Forall_app. split; [done|].
        constructor; [done | by apply allowed_extension_path_safe].
      * exists ("/"%char :: stem), ext. by rewrite Heq.
    + split; [by eexists|]. split.
      * rewrite Heq. repeat (constructor; [done|]).
        by apply allowed_extension_path_safe.
      * exists ["/"%char], ext. by rewrite Heq.
Qed.

Lemma isValidFilePath_nonempty (s : string) :
  isValidFilePath s = true → s ≠ EmptyString.
Proof. intros H ->. done. Qed.

Lemma isValidUserId_nonempty (s : string) :
  isValidUserId s = true → s ≠ EmptyString.
Proof. intros H ->. done. Qed.

End ValidatorFacts.

(* ====================================================================== *)
(** * The store invariant                                                  *)
(* ====================================================================== *)

Section StoreInvariant.
Implicit Types (store : urlStore) (d : tokenData).

Lemma generateToken_length (entropy : nat → byte) :
  String.length (generateToken entropy) = 64%nat.
Proof.
  unfold generateToken.
  by rewrite JSFacts.length_toString_hex, JSFacts.length_randomBytes.
Qed.

Lemma token_nonempty (token : string) :
  String.length token = 64%nat → JS.falsy (Some token) = false.
Proof. intros H. apply JSFacts.falsy_Some, JSFacts.length_pos_nonempty. lia. Qed.

Lemma cleanup_lookup (cur : Z) store (token : string) d :
  cleanup cur store !! token = Some d ↔
  store !! token = Some d ∧ cur ≤ expires d.
Proof.
  unfold cleanup. rewrite map_lookup_filter_Some. simpl.
  split; intros [H1 H2]; (split; [done | lia]).
Qed.

Lemma cleanup_wf (cur : Z) store : store_wf store → store_wf (cleanup cur store).
Proof.
  intros H token d [Hd _]%cleanup_lookup. by apply (H token d).
Qed.

Lemma generate_wf f u env store :
  store_wf store → store_wf (generate_signed_url f u env store).2.
Proof.
  intros H. unfold generate_signed_url.
  destruct (JS.falsy f); [done|]. destruct (JS.falsy u); [done|].
  destruct (isValidFilePath (str f)) eqn:Hf; [|done].
  destruct (isValidUserId (str u)) eqn:Hu; [|done].
  simpl. apply cleanup_wf, map_Forall_insert_2; [|done].
  split; [apply generateToken_length | done].
Qed.

Lemma validate_wf t now store :
  store_wf store → store_wf (validate_token t now store).2.
Proof.
  intros H. unfold validate_token.
  destruct (JS.falsy t); [done|].
  destruct (store !! str t) as [d|]; [|done].
  destruct (expires d <? _); [|done].
  by apply map_Forall_delete.
Qed.

Lemma media_wf path t e u now store :
  store_wf store → store_wf (media path t e u now store).2.
Proof.
  intros H. unfold media.
  destruct (_ || _) eqn:Hmissing; [done|].
  destruct (store !! str t) as [d|]; [|done].
  destruct (JS.gt _ _).
  - destruct (JS.Date_toISOString _); by apply map_Forall_delete.
  - destruct (negb _ || negb _); [done|]. by destruct (JS.Date_toISOString _).
Qed.

Lemma handle_wf req store : store_wf store → store_wf (handle req store).2.
Proof.
  intros H. destruct req as [f u env|t now|now|path t e u now]; simpl.
  - pose proof (generate_wf f u env store H).
    by destruct (generate_signed_url f u env store).
  - pose proof (validate_wf t now store H).
    by destruct (validate_token t now store).
  - done.
  - pose proof (media_wf path t e u now store H).
    by destruct (media path t e u now store).
Qed.

Lemma run_wf reqs store : store_wf store → store_wf (run reqs store).2.
Proof.
  revert store. induction reqs as [|req reqs IH]; intros store H; simpl; [done|].
  pose proof (handle_wf req store H) as H1.
  destruct (handle req store) as [r s]. simpl in H1.
  pose proof (IH s H1) as H2. by destruct (run reqs s).
Qed.

(** Every store of the process satisfies the invariant. *)
Theorem reachable_wf store : reachable store → store_wf store.
Proof.
  intros [reqs <-]. apply run_wf, map_Forall_empty.
Qed.

Lemma reachable_token_present store (token : string) d :
  reachable store → store !! token = Some d → JS.falsy (Some token) = false.
Proof.
  intros Hr Hd. by destruct (reachable_wf store Hr token d Hd) as [?%token_nonempty _].
Qed.

Lemma reachable_userId_present store (token : string) d :
  reachable store → store !! token = Some d → JS.falsy (Some (userId d)) = false.
Proof.
  intros Hr Hd. destruct (reachable_wf store Hr token d Hd) as (_ & _ & Hu).
  by apply JSFacts.falsy_Some, ValidatorFacts.isValidUserId_nonempty.
Qed.

Lemma reachable_step req store : reachable store → reachable (handle req store).2.
Proof.
  intros [reqs <-]. exists (reqs ++ [req]).
  generalize (∅ : urlStore). induction reqs as [|r0 reqs IH]; intros s0; simpl.
  - by destruct (handle req s0).
  - destruct (handle r0 s0) as [x s1]. specialize (IH s1).
    destruct (run (reqs ++ [req]) s1), (run reqs s1). done.
Qed.

Lemma sample_store_reachable : reachable sample_store.
Proof. by exists [sample_mint]. Qed.

End StoreInvariant.

(* ====================================================================== *)
(** * Minting: [GET /api/generate-signed-url]                              *)
(* ====================================================================== *)

Section Mint.
Implicit Types (store : urlStore) (env : generate_env).

Lemma not_shape_invalid_path (fp : string) :
  ¬ Spec.media_path_shape fp → isValidFilePath fp = false.
Proof.
  intros H. destruct (isValidFilePath fp) eqn:E; [|done].
  by apply ValidatorFacts.isValidFilePath_shape in E.
Qed.

Lemma not_shape_invalid_userId (uid : string) :
  ¬ Spec.identifier_shape uid → isValidUserId uid = false.
Proof.
  intros H. destruct (isValidUserId uid) eqn:E; [|done].
  by apply ValidatorFacts.isValidUserId_shape in E.
Qed.

Lemma valid_path_present (fp : string) :
  isValidFilePath fp = true → JS.falsy (Some fp) = false.
Proof.
  intros H. by apply JSFacts.falsy_Some, ValidatorFacts.isValidFilePath_nonempty.
Qed.

Lemma valid_userId_present (uid : string) :
  isValidUserId uid = true → JS.falsy (Some uid) = false.
Proof.
  intros H. by apply JSFacts.falsy_Some, ValidatorFacts.isValidUserId_nonempty.
Qed.

(** What a mint of a valid pair answers and stores. *)
Lemma generate_valid (fp uid : string) env store :
  isValidFilePath fp = true → isValidUserId uid = true →
  generate_signed_url (Some fp) (Some uid) env store =
  (GenOk
     (signed_url fp (generateToken (entropy env))
        (getExpiryTimestamp (now_expiry env)) uid)
     {| meta_filePath := fp; meta_userId := uid;
        meta_expiresAt := getExpiryTimestamp (now_expiry env) |},
   cleanup (JS.floor_div (now_cleanup env) 1000)
     (<[generateToken (entropy env) :=
          {| filePath := fp; userId := uid;
             expires := getExpiryTimestamp (now_expiry env);
             createdAt := now_created env |}]> store)).
Proof.
  intros Hf Hu. unfold generate_signed_url.
  rewrite (valid_path_present fp Hf), (valid_userId_present uid Hu).
  simpl str. by rewrite Hf, Hu.
Qed.

(** C6, the claim as stated fails: ["/.mp4"] begins with a path separator,
    contains only path-safe characters and ends with the extension [mp4],
    and ["USER_001"] is a well-formed requester, yet the mint is refused
    for the format of its [filePath]: the pattern wants at least one
    character between the separator and the dot. *)
Lemma dot_file_path_rejected :
  Spec.media_path_words "/.mp4"
  ∧ Spec.identifier_shape "USER_001"
  ∧ (generate_signed_url (Some "/.mp4") (Some "USER_001")
       (env_at 1700000000000) ∅).1 =
    GenError 400 "Invalid filePath format. Must be a valid path to a media file.".
Proof.
  split; [|split].
  - split; [by exists (list_ascii_of_string ".mp4")|]. split.
    + repeat constructor.
    + exists ["/"%char], (list_ascii_of_string "mp4"). split; [done|].
      unfold Spec.allowed_extensions. apply list_elem_of_here.
  - by apply ValidatorFacts.isValidUserId_shape.
  - vm_compute. reflexivity.
Qed.

(** C6, amended: the handler applies its four checks in order and the
    first failure decides the answer: a missing [filePath] (absent or
    empty) whatever [userId] is; then a missing [userId]; then a
    [filePath] that is not a path separator, followed by at least one
    path-safe character, followed by a dot and one of the nine extensions
    in any case, whatever the shape of [userId]; then a [userId] that is
    not 3 to 50 characters of [[A-Za-z0-9_]].  Each answer names its
    field, and a pair that passes all four is answered with success. *)
Theorem generate_validation_order env store :
  (∀ f u, JS.falsy f = true →
     (generate_signed_url f u env store).1 =
     GenError 400 "Missing required parameter: filePath")
  ∧ (∀ f u, JS.falsy f = false → JS.falsy u = true →
     (generate_signed_url f u env store).1 =
     GenError 400 "Missing required parameter: userId")
  ∧ (∀ fp uid, JS.falsy (Some fp) = false → JS.falsy (Some uid) = false →
     ¬ Spec.media_path_shape fp →
     (generate_signed_url (Some fp) (Some uid) env store).1 =
     GenError 400 "Invalid filePath format. Must be a valid path to a media file.")
  ∧ (∀ fp uid, JS.falsy (Some uid) = false →
     Spec.media_path_shape fp → ¬ Spec.identifier_shape uid →
     (generate_signed_url (Some fp) (Some uid) env store).1 =
     GenError 400 "Invalid userId format. Must be alphanumeric with underscores, 3-50 characters.")
  ∧ (∀ fp uid, Spec.media_path_shape fp → Spec.identifier_shape uid →
     ∃ url meta,
       (generate_signed_url (Some fp) (Some uid) env store).1 = GenOk url meta).
Proof.
  repeat split.
  - intros f u Hf. unfold generate_signed_url. by rewrite Hf.
  - intros f u Hf Hu. unfold generate_signed_url. by rewrite Hf, Hu.
  - intros fp uid Hf Hu Hshape. unfold generate_signed_url.
    rewrite Hf, Hu. simpl str. by rewrite (not_shape_invalid_path fp Hshape).
  - intros fp uid Hu Hshape Hid. unfold generate_signed_url.
    apply ValidatorFacts.isValidFilePath_shape in Hshape.
    rewrite (valid_path_present fp Hshape), Hu. simpl str. rewrite Hshape.
    by rewrite (not_shape_invalid_userId uid Hid).
  - intros fp uid Hf%ValidatorFacts.isValidFilePath_shape
      Hu%ValidatorFacts.isValidUserId_shape.
    rewrite (generate_valid fp uid env store Hf Hu). eauto.
Qed.

(** C7: a pair that fails any of the four checks of the handler is
    answered with the validation error and the store is handed back as it
    was: nothing is inserted, the cleanup loop does not run (entries that
    have expired stay), and the size is the same. *)
Theorem generate_rejects_before_mutation f u env store :
  JS.falsy f = true ∨ JS.falsy u = true
  ∨ isValidFilePath (str f) = false ∨ isValidUserId (str u) = false →
  ∃ error,
    (generate_signed_url f u env store).1 = GenError 400 error
    ∧ (generate_signed_url f u env store).2 = store
    ∧ size (generate_signed_url f u env store).2 = size store.
Proof.
  intros H. unfold generate_signed_url.
  destruct (JS.falsy f) eqn:Hf; [by eexists|].
  destruct (JS.falsy u) eqn:Hu; [by eexists|].
  destruct (isValidFilePath (str f)) eqn:Hpath; [|by eexists].
  destruct (isValidUserId (str u)) eqn:Hid; [|by eexists].
  destruct H as [H|[H|[H|H]]]; done.
Qed.

(** An invalid path is rejected in front of a store that holds an entry
    long expired: the entry is still there afterwards. *)
Lemma generate_rejects_before_mutation_witness :
  ∃ error,
    (generate_signed_url (Some "invalid-path") (Some "USER_001")
       (env_at 1800000000000) sample_store).1 = GenError 400 error
    ∧ (generate_signed_url (Some "invalid-path") (Some "USER_001")
         (env_at 1800000000000) sample_store).2 = sample_store
    ∧ size (generate_signed_url (Some "invalid-path") (Some "USER_001")
              (env_at 1800000000000) sample_store).2 = size sample_store.
Proof.
  apply generate_rejects_before_mutation.
  right; right; left. vm_compute. reflexivity.
Defined.

(** C8: for a valid pair the answer carries a token that is the hex
    rendering of the 32 bytes drawn from the entropy source: 64
    characters, from which the 32 bytes (256 bits) can be read back; and
    the expiry, in the answer and in the stored entry, is the second at
    which the handler read the clock plus 120. *)
Theorem generate_token_and_expiry (fp uid : string) env store :
  isValidFilePath fp = true → isValidUserId uid = true →
  ∃ token expiresAt,
    (generate_signed_url (Some fp) (Some uid) env store).1 =
      GenOk (signed_url fp token expiresAt uid)
        {| meta_filePath := fp; meta_userId := uid; meta_expiresAt := expiresAt |}
    ∧ token = JS.toString_hex (JS.randomBytes 32 (entropy env))
    ∧ length (JS.randomBytes 32 (entropy env)) = 32%nat
    ∧ String.length token = 64%nat
    ∧ JS.bytes_of_hex token = Some (JS.randomBytes 32 (entropy env))
    ∧ expiresAt = JS.floor_div (now_expiry env) 1000 + 120
    ∧ (JS.floor_div (now_cleanup env) 1000 ≤ expiresAt →
       (generate_signed_url (Some fp) (Some uid) env store).2 !! token =
       Some {| filePath := fp; userId := uid; expires := expiresAt;
               createdAt := now_created env |}).
Proof.
  intros Hf Hu. rewrite (generate_valid fp uid env store Hf Hu).
  exists (generateToken (entropy env)), (getExpiryTimestamp (now_expiry env)).
  split; [done|]. split; [done|].
  split; [apply JSFacts.length_randomBytes|].
  split; [apply generateToken_length|].
  split; [apply JSFacts.bytes_of_hex_toString_hex|].
  split; [done|].
  intros Hc. simpl. apply cleanup_lookup. by rewrite lookup_insert_eq.
Qed.

Lemma generate_token_and_expiry_witness :
  ∃ token expiresAt,
    (generate_signed_url (Some "/videos/intro.mp4") (Some "USER_001")
       (env_at 1700000000000) ∅).1 =
      GenOk (signed_url "/videos/intro.mp4" token expiresAt "USER_001")
        {| meta_filePath := "/videos/intro.mp4"; meta_userId := "USER_001";
           meta_expiresAt := expiresAt |}
    ∧ token = JS.toString_hex (JS.randomBytes 32 sample_entropy)
    ∧ length (JS.randomBytes 32 sample_entropy) = 32%nat
    ∧ String.length token = 64%nat
    ∧ JS.bytes_of_hex token = Some (JS.randomBytes 32 sample_entropy)
    ∧ expiresAt = JS.floor_div 1700000000000 1000 + 120
    ∧ (JS.floor_div 1700000000000 1000 ≤ expiresAt →
       (generate_signed_url (Some "/videos/intro.mp4") (Some "USER_001")
          (env_at 1700000000000) ∅).2 !! token =
       Some {| filePath := "/videos/intro.mp4"; userId := "USER_001";
               expires := expiresAt; createdAt := 1700000000000 |}).
Proof.
  apply (generate_token_and_expiry "/videos/intro.mp4" "USER_001"
           (env_at 1700000000000) ∅).
  - vm_compute. reflexivity.
  - vm_compute. reflexivity.
Defined.

End Mint.

(* ====================================================================== *)
(** * Redeeming: [GET /media/*]                                            *)
(* ====================================================================== *)

Section Redeem.
Implicit Types (store : urlStore) (d : tokenData) (t e u path : string).

Lemma parseInt_present e z : JS.parseInt e = JS.Num z → JS.falsy (Some e) = false.
Proof. by destruct e. Qed.

Lemma date_in_range z :
  - max_expiry ≤ z ≤ max_expiry →
  JS.Date_toISOString (JS.mul (JS.Num z) 1000) = Some (z * 1000).
Proof.
  unfold max_expiry. intros H. simpl. unfold JS.max_time_value.
  replace (_ <=? z * 1000) with true by (symmetry; apply Z.leb_le; lia).
  replace (z * 1000 <=? _) with true by (symmetry; apply Z.leb_le; lia).
  done.
Qed.

Lemma date_out_of_range z :
  max_expiry < z → JS.Date_toISOString (JS.mul (JS.Num z) 1000) = None.
Proof.
  unfold max_expiry. intros H. simpl. unfold JS.max_time_value.
  replace (z * 1000 <=? _) with false by (symmetry; apply Z.leb_gt; lia).
  by rewrite andb_false_r.
Qed.

(** The handler once the three parameters are present and the token is
    found. *)
Lemma media_found path t e u now store d :
  JS.falsy (Some t) = false → JS.falsy (Some e) = false →
  JS.falsy (Some u) = false → store !! t = Some d →
  media path (Some t) (Some e) (Some u) now store =
  if JS.gt (JS.floor_div now 1000) (JS.parseInt e) then
    match JS.Date_toISOString (JS.mul (JS.parseInt e) 1000) with
    | Some expiredAt => (MediaExpired expiredAt, delete t store)
    | None => (MediaError 500 "Internal server error while accessing media",
               delete t store)
    end
  else if negb (String.eqb (filePath d) (JS.remove_first "/media" path))
          || negb (String.eqb (userId d) u) then
    (MediaError 403 "Access denied", store)
  else
    match JS.Date_toISOString (JS.mul (JS.parseInt e) 1000) with
    | Some expiresAt =>
        (MediaGranted (JS.remove_first "/media" path) u
           (JS.sub (JS.parseInt e) (JS.floor_div now 1000)) expiresAt, store)
    | None => (MediaError 500 "Internal server error while accessing media", store)
    end.
Proof.
  intros Ht He Hu Hd. unfold media. rewrite Ht, He, Hu. simpl str.
  by rewrite Hd.
Qed.

Lemma binding_match d path u :
  filePath d = JS.remove_first "/media" path → userId d = u →
  negb (String.eqb (filePath d) (JS.remove_first "/media" path))
  || negb (String.eqb (userId d) u) = false.
Proof. intros -> ->. by rewrite !String.eqb_refl. Qed.

Lemma binding_mismatch d path u :
  filePath d ≠ JS.remove_first "/media" path ∨ userId d ≠ u →
  negb (String.eqb (filePath d) (JS.remove_first "/media" path))
  || negb (String.eqb (userId d) u) = true.
Proof.
  intros [H|H]; apply orb_true_iff; [left | right];
    apply negb_true_iff, String.eqb_neq; done.
Qed.

(** Granted, on the word of the [expires] parameter. *)
Lemma media_granted_present path t e u now store d z :
  JS.falsy (Some t) = false → JS.falsy (Some u) = false →
  store !! t = Some d →
  filePath d = JS.remove_first "/media" path → userId d = u →
  JS.parseInt e = JS.Num z →
  JS.floor_div now 1000 ≤ z → - max_expiry ≤ z ≤ max_expiry →
  media path (Some t) (Some e) (Some u) now store =
  (MediaGranted (filePath d) u (JS.Num (z - JS.floor_div now 1000)) (z * 1000),
   store).
Proof.
  intros Ht Hup Hd Hf Hu He Hnow Hz.
  rewrite (media_found path t e u now store d);
    [| done | by eapply parseInt_present | done | done].
  rewrite He, (binding_match d path u Hf Hu), (date_in_range z Hz). simpl.
  replace (z <? JS.floor_div now 1000) with false
    by (symmetry; apply Z.ltb_ge; lia).
  by rewrite Hf.
Qed.

Lemma media_granted path t e u now store d z :
  reachable store → store !! t = Some d →
  filePath d = JS.remove_first "/media" path → userId d = u →
  JS.parseInt e = JS.Num z →
  JS.floor_div now 1000 ≤ z → - max_expiry ≤ z ≤ max_expiry →
  media path (Some t) (Some e) (Some u) now store =
  (MediaGranted (filePath d) u (JS.Num (z - JS.floor_div now 1000)) (z * 1000),
   store).
Proof.
  intros Hr Hd Hf Hu He Hnow Hz.
  apply media_granted_present; try done.
  - by eapply reachable_token_present.
  - subst u. by eapply reachable_userId_present.
Qed.

(** Expired, on the word of the [expires] parameter: the entry is
    deleted. *)
Lemma media_expired path t e u now store d z :
  reachable store → store !! t = Some d → JS.falsy (Some u) = false →
  JS.parseInt e = JS.Num z →
  z < JS.floor_div now 1000 → - max_expiry ≤ z ≤ max_expiry →
  media path (Some t) (Some e) (Some u) now store =
  (MediaExpired (z * 1000), delete t store).
Proof.
  intros Hr Hd Hu He Hnow Hz.
  rewrite (media_found path t e u now store d);
    [| by eapply reachable_token_present | by eapply parseInt_present
     | done | done].
  rewrite He, (date_in_range z Hz). simpl.
  by replace (z <? JS.floor_div now 1000) with true
    by (symmetry; apply Z.ltb_lt; lia).
Qed.

(** A token that is not in the store is answered 401, whatever the other
    parameters are, as long as they are present. *)
Lemma media_unknown_token path t e u now store :
  JS.falsy (Some t) = false → JS.falsy (Some e) = false →
  JS.falsy (Some u) = false → store !! t = None →
  media path (Some t) (Some e) (Some u) now store =
  (MediaError 401 "Invalid or expired token", store).
Proof.
  intros Ht He Hu Hd. unfold media. rewrite Ht, He, Hu. simpl str.
  by rewrite Hd.
Qed.

(** With the [expires] value that was issued with the token, a redeem
    after the stored expiry answers 410 and deletes the entry, and the
    token is unknown to every later redeem. *)
Lemma media_expired_issued_url path t u now store d :
  reachable store → store !! t = Some d → JS.falsy (Some u) = false →
  expires d < JS.floor_div now 1000 → - max_expiry ≤ expires d ≤ max_expiry →
  media path (Some t) (Some (JS.num_to_string (expires d))) (Some u) now store =
    (MediaExpired (expires d * 1000), delete t store)
  ∧ ∀ path' e' u' now',
      JS.falsy (Some e') = false → JS.falsy (Some u') = false →
      media path' (Some t) (Some e') (Some u') now' (delete t store) =
      (MediaError 401 "Invalid or expired token", delete t store).
Proof.
  intros Hr Hd Hu Hnow Hz. split.
  - by apply (media_expired path t _ u now store d (expires d));
      [..| apply JSFacts.parseInt_num_to_string | |].
  - intros path' e' u' now' He' Hu'. apply media_unknown_token; [|done..|].
    + by eapply reachable_token_present.
    + apply lookup_delete_eq.
Qed.

(** C1: the store holds the token minted at second 1700000000, expiring
    at second 1700000120.  At second 1800000000, long after that expiry,
    a redeem whose [expires] parameter reads 1900000000 is granted, the
    entry stays in the store, and the same redeem is granted again. *)
Theorem redeem_after_expiry_granted_with_later_parameter :
  sample_store !! sample_token =
    Some {| filePath := "/videos/intro.mp4"; userId := "USER_001";
            expires := 1700000120; createdAt := 1700000000000 |}
  ∧ (run [ReqMedia "/media/videos/intro.mp4" (Some sample_token)
            (Some "1900000000") (Some "USER_001") 1800000000000;
          ReqMedia "/media/videos/intro.mp4" (Some sample_token)
            (Some "1900000000") (Some "USER_001") 1800000000000]
       sample_store).1 =
    [RespMedia (MediaGranted "/videos/intro.mp4" "USER_001"
                  (JS.Num 100000000) 1900000000000);
     RespMedia (MediaGranted "/videos/intro.mp4" "USER_001"
                  (JS.Num 100000000) 1900000000000)]
  ∧ (media "/media/videos/intro.mp4" (Some sample_token)
       (Some "1900000000") (Some "USER_001") 1800000000000 sample_store).2
    !! sample_token =
    Some {| filePath := "/videos/intro.mp4"; userId := "USER_001";
            expires := 1700000120; createdAt := 1700000000000 |}.
Proof. by_evaluation. Qed.

(** C2, the claim as stated fails: the token is stored, the binding
    matches, and the [expires] parameter parses to [NaN]; the answer is
    500, not a grant, because rendering the expiry date throws.  The same
    happens for a parameter beyond the range of [Date]. *)
Lemma media_NaN_expires_not_granted :
  sample_store !! sample_token =
    Some {| filePath := "/videos/intro.mp4"; userId := "USER_001";
            expires := 1700000120; createdAt := 1700000000000 |}
  ∧ JS.parseInt "soon" = JS.NaN
  ∧ (media "/media/videos/intro.mp4" (Some sample_token) (Some "soon")
       (Some "USER_001") 1700000000000 sample_store).1 =
    MediaError 500 "Internal server error while accessing media"
  ∧ JS.parseInt "8640000000001" = JS.Num 8640000000001
  ∧ (media "/media/videos/intro.mp4" (Some sample_token) (Some "8640000000001")
       (Some "USER_001") 1700000000000 sample_store).1 =
    MediaError 500 "Internal server error while accessing media".
Proof. by_evaluation. Qed.

(** C2, amended: the expiry decision and the remaining time come from
    the [expires] parameter of the request, not from the stored entry,
    whose [expires] is arbitrary below.  For a stored token, in a request
    that carries the three parameters: when the parameter parses to a
    number before the current second, the entry is deleted (and the answer
    is 410 when that number is a date [Date] can hold); when it parses to a
    number not before the current second and at most 8640000000000 and the
    binding matches, the redeem is granted with that number minus the
    current second as remaining time; when it parses to [NaN], or to a
    number beyond 8640000000000, and the binding matches, the answer is 500
    and the store is handed back as it was. *)
Theorem media_trusts_expires_parameter path t e u now store d :
  reachable store → store !! t = Some d →
  JS.falsy (Some e) = false → JS.falsy (Some u) = false →
  (∀ z, JS.parseInt e = JS.Num z → z < JS.floor_div now 1000 →
     (media path (Some t) (Some e) (Some u) now store).2 = delete t store
     ∧ (- max_expiry ≤ z ≤ max_expiry →
        (media path (Some t) (Some e) (Some u) now store).1 =
        MediaExpired (z * 1000)))
  ∧ (∀ z, JS.parseInt e = JS.Num z →
     JS.floor_div now 1000 ≤ z → - max_expiry ≤ z ≤ max_expiry →
     filePath d = JS.remove_first "/media" path → userId d = u →
     media path (Some t) (Some e) (Some u) now store =
     (MediaGranted (filePath d) u (JS.Num (z - JS.floor_div now 1000)) (z * 1000),
      store))
  ∧ (JS.parseInt e = JS.NaN
     ∨ (∃ z, JS.parseInt e = JS.Num z ∧ JS.floor_div now 1000 ≤ z ∧ max_expiry < z) →
     filePath d = JS.remove_first "/media" path → userId d = u →
     media path (Some t) (Some e) (Some u) now store =
     (MediaError 500 "Internal server error while accessing media", store)).
Proof.
  intros Hr Hd He Hu.
  pose proof (media_found path t e u now store d
    (reachable_token_present store t d Hr Hd) He Hu Hd) as Hmedia.
  split; [|split].
  - intros z Hz Hnow. rewrite Hmedia, Hz. simpl JS.gt.
    replace (z <? JS.floor_div now 1000) with true
      by (symmetry; apply Z.ltb_lt; lia).
    split; [destruct (JS.Date_toISOString (JS.mul (JS.Num z) 1000)); reflexivity|].
    intros Hrange. by rewrite date_in_range.
  - intros z Hz Hnow Hrange Hf Hb. by apply media_granted.
  - intros Hbad Hf Hb. rewrite Hmedia, (binding_match d path u Hf Hb).
    destruct Hbad as [-> | (z & -> & Hnow & Hbig)]; [done|].
    rewrite (date_out_of_range z Hbig). simpl JS.gt.
    by replace (z <? JS.floor_div now 1000) with false
      by (symmetry; apply Z.ltb_ge; lia).
Qed.

Lemma media_trusts_expires_parameter_witness :
  media "/media/videos/intro.mp4" (Some sample_token) (Some "1900000000")
    (Some "USER_001") 1800000000000 sample_store =
  (MediaGranted "/videos/intro.mp4" "USER_001"
     (JS.Num (1900000000 - JS.floor_div 1800000000000 1000))
     (1900000000 * 1000),
   sample_store).
Proof.
  apply (proj1 (proj2 (media_trusts_expires_parameter
    "/media/videos/intro.mp4" sample_token "1900000000" "USER_001"
    1800000000000 sample_store
    {| filePath := "/videos/intro.mp4"; userId := "USER_001";
       expires := 1700000120; createdAt := 1700000000000 |}
    sample_store_reachable ltac:(vm_compute; reflexivity)
    ltac:(reflexivity) ltac:(reflexivity))) 1900000000).
  - vm_compute. reflexivity.
  - vm_compute. discriminate.
  - unfold max_expiry. lia.
  - reflexivity.
  - reflexivity.
Defined.

(** The expiry check comes before the binding check: the stored token
    expired at second 1700000120; at second 1800000000 a redeem that
    carries the issued [expires] value and another user's id is answered
    410, not 403, and the entry is deleted. *)
Lemma mismatch_on_expired_token_evicts :
  sample_store !! sample_token =
    Some {| filePath := "/videos/intro.mp4"; userId := "USER_001";
            expires := 1700000120; createdAt := 1700000000000 |}
  ∧ (media "/media/videos/intro.mp4" (Some sample_token) (Some "1700000120")
       (Some "USER_002") 1800000000000 sample_store).1 =
    MediaExpired 1700000120000
  ∧ (media "/media/videos/intro.mp4" (Some sample_token) (Some "1700000120")
       (Some "USER_002") 1800000000000 sample_store).2 !! sample_token = None.
Proof. by_evaluation. Qed.

(** C3: the store holds the token minted at second 1700000000 for
    ["/videos/intro.mp4"] and ["USER_001"], expiring at second 1700000120.
    At second 1700000060, while the token is live, a request with another
    user's id and an [expires] parameter reading 1 is not answered 403: the
    handler takes the token for expired on the word of the parameter,
    answers 410 and deletes the entry.  The rightful holder, following the
    issued URL in the same second, is then answered 401. *)
Theorem mismatch_with_early_expires_evicts_live_token :
  sample_store !! sample_token =
    Some {| filePath := "/videos/intro.mp4"; userId := "USER_001";
            expires := 1700000120; createdAt := 1700000000000 |}
  ∧ JS.floor_div 1700000060000 1000 ≤ 1700000120
  ∧ (run [ReqMedia "/media/videos/intro.mp4" (Some sample_token)
            (Some "1") (Some "USER_002") 1700000060000;
          ReqMedia "/media/videos/intro.mp4" (Some sample_token)
            (Some "1700000120") (Some "USER_001") 1700000060000]
       sample_store).1 =
    [RespMedia (MediaExpired 1000);
     RespMedia (MediaError 401 "Invalid or expired token")]
  ∧ (media "/media/videos/intro.mp4" (Some sample_token) (Some "1")
       (Some "USER_002") 1700000060000 sample_store).2 !! sample_token = None
  ∧ (media "/media/videos/intro.mp4" (Some sample_token) (Some "1700000120")
       (Some "USER_001") 1700000060000 sample_store).1 =
    MediaGranted "/videos/intro.mp4" "USER_001" (JS.Num 60) 1700000120000.
Proof.
  split; [by_evaluation|]. split; [vm_compute; discriminate|]. by_evaluation.
Qed.

(** With the [expires] value that was issued with the token, the binding
    check does what is expected of it: for a stored token that has not
    expired, in a request that carries a user id, a path or a user id that
    differs from the stored binding is answered 403 and the store is
    handed back as it was; the same token with the stored path and user id
    is then granted.  The stored expiry is a date that [Date] can hold, as
    every expiry computed from the clock is. *)
Theorem media_binding_mismatch path t u now store d :
  reachable store → store !! t = Some d → JS.falsy (Some u) = false →
  - max_expiry ≤ expires d ≤ max_expiry →
  JS.floor_div now 1000 ≤ expires d →
  filePath d ≠ JS.remove_first "/media" path ∨ userId d ≠ u →
  media path (Some t) (Some (JS.num_to_string (expires d))) (Some u) now store =
    (MediaError 403 "Access denied", store)
  ∧ media ("/media" +:+ filePath d) (Some t)
      (Some (JS.num_to_string (expires d))) (Some (userId d)) now
      (media path (Some t) (Some (JS.num_to_string (expires d))) (Some u)
         now store).2 =
    (MediaGranted (filePath d) (userId d)
       (JS.Num (expires d - JS.floor_div now 1000)) (expires d * 1000),
     store).
Proof.
  intros Hr Hd Hu Hz Hnow Hmis.
  assert (media path (Some t) (Some (JS.num_to_string (expires d))) (Some u)
            now store = (MediaError 403 "Access denied", store)) as H403.
  { rewrite (media_found path t _ u now store d);
      [| by eapply reachable_token_present
       | eapply parseInt_present, JSFacts.parseInt_num_to_string
       | done | done].
    rewrite JSFacts.parseInt_num_to_string, (binding_mismatch d path u Hmis).
    simpl. by replace (expires d <? JS.floor_div now 1000) with false
      by (symmetry; apply Z.ltb_ge; lia). }
  split; [done|]. rewrite H403. simpl.
  apply media_granted; try done.
  - by rewrite JSFacts.remove_first_media.
  - apply JSFacts.parseInt_num_to_string.
Qed.

Lemma media_binding_mismatch_witness :
  media "/media/videos/other.mp4" (Some sample_token)
    (Some (JS.num_to_string 1700000120)) (Some "USER_002") 1700000060000
    sample_store =
    (MediaError 403 "Access denied", sample_store)
  ∧ media ("/media" +:+ "/videos/intro.mp4") (Some sample_token)
      (Some (JS.num_to_string 1700000120)) (Some "USER_001") 1700000060000
      (media "/media/videos/other.mp4" (Some sample_token)
         (Some (JS.num_to_string 1700000120)) (Some "USER_002") 1700000060000
         sample_store).2 =
    (MediaGranted "/videos/intro.mp4" "USER_001"
       (JS.Num (1700000120 - JS.floor_div 1700000060000 1000))
       (1700000120 * 1000),
     sample_store).
Proof.
  apply (media_binding_mismatch
    "/media/videos/other.mp4" sample_token "USER_002" 1700000060000
    sample_store
    {| filePath := "/videos/intro.mp4"; userId := "USER_001";
       expires := 1700000120; createdAt := 1700000000000 |}
    sample_store_reachable ltac:(vm_compute; reflexivity)
    ltac:(reflexivity) ltac:(unfold max_expiry; simpl; lia)
    ltac:(vm_compute; discriminate)
    ltac:(left; vm_compute; discriminate)).
Defined.

End Redeem.

(* ====================================================================== *)
(** * Reading the store: [/api/validate-token] and [/api/stats]            *)
(* ====================================================================== *)

Section Reads.
Implicit Types (store : urlStore) (d : tokenData) (t : string).

(** An entry past its expiry is reported expired by the validation
    endpoint, which deletes it. *)
Lemma validate_token_expired t now store d :
  JS.falsy (Some t) = false → store !! t = Some d →
  expires d < JS.floor_div now 1000 →
  validate_token (Some t) now store =
  (ValInvalid "Token expired", delete t store).
Proof.
  intros Ht Hd Hnow. unfold validate_token. rewrite Ht. simpl str. rewrite Hd.
  by replace (expires d <? JS.floor_div now 1000) with true
    by (symmetry; apply Z.ltb_lt; lia).
Qed.

(** An entry past its expiry does not count as active: the count is the
    same with the entry deleted. *)
Lemma count_active_expired t cur store d :
  store !! t = Some d → expires d < cur →
  count_active cur store = count_active cur (delete t store).
Proof.
  intros Hd Hcur. unfold count_active. f_equal.
  rewrite map_filter_delete. symmetry. apply delete_id.
  apply map_lookup_filter_None. right. intros d' Hd'. simpl.
  rewrite Hd in Hd'. injection Hd' as <-. lia.
Qed.

(** The active count never exceeds the size of the store. *)
Lemma count_active_le_size cur store : (count_active cur store ≤ size store)%nat.
Proof. apply map_subseteq_size, map_filter_subseteq. Qed.

(** C10: for a token of the store that has not expired, the validation
    endpoint answers with the stored path, user id and expiry and the
    remaining seconds.  The token is the only parameter of the request:
    the answer is a function of the token, the clock and the store. *)
Theorem validate_token_discloses_binding t now store d :
  reachable store → store !! t = Some d →
  JS.floor_div now 1000 ≤ expires d →
  validate_token (Some t) now store =
  (ValValid (filePath d) (userId d) (expires d)
     (expires d - JS.floor_div now 1000),
   store).
Proof.
  intros Hr Hd Hnow. unfold validate_token.
  rewrite (reachable_token_present store t d Hr Hd). simpl str. rewrite Hd.
  by replace (expires d <? JS.floor_div now 1000) with false
    by (symmetry; apply Z.ltb_ge; lia).
Qed.

Lemma validate_token_discloses_binding_witness :
  validate_token (Some sample_token) 1700000060000 sample_store =
  (ValValid "/videos/intro.mp4" "USER_001" 1700000120
     (1700000120 - JS.floor_div 1700000060000 1000),
   sample_store).
Proof.
  apply (validate_token_discloses_binding sample_token 1700000060000
    sample_store
    {| filePath := "/videos/intro.mp4"; userId := "USER_001";
       expires := 1700000120; createdAt := 1700000000000 |}
    sample_store_reachable ltac:(vm_compute; reflexivity)
    ltac:(vm_compute; discriminate)).
Defined.

(** C5: the stored token expired at second 1700000120 and is still in the
    store at second 1800000000.  The validation endpoint reports it
    expired and the statistics count no active token, but a redeem whose
    [expires] parameter reads 1900000000 is granted against it. *)
Theorem expired_entry_still_grants_access :
  sample_store !! sample_token =
    Some {| filePath := "/videos/intro.mp4"; userId := "USER_001";
            expires := 1700000120; createdAt := 1700000000000 |}
  ∧ (validate_token (Some sample_token) 1800000000000 sample_store).1 =
    ValInvalid "Token expired"
  ∧ activeTokens (stats 1800000000000 sample_store) = 0%nat
  ∧ (media "/media/videos/intro.mp4" (Some sample_token) (Some "1900000000")
       (Some "USER_001") 1800000000000 sample_store).1 =
    MediaGranted "/videos/intro.mp4" "USER_001" (JS.Num 100000000) 1900000000000.
Proof. by_evaluation. Qed.

(** C4: one token is minted at second 1700000000; at second 1800000000 it
    is redeemed with the issued [expires] value, found expired and
    deleted; the statistics then report a total of 0, although the run has
    inserted one entry.  Likewise a second mint at second 1800000000
    sweeps the first entry: two insertions, a total of 1. *)
Theorem stats_total_drops_after_eviction :
  (run [sample_mint;
        ReqMedia "/media/videos/intro.mp4" (Some sample_token)
          (Some "1700000120") (Some "USER_001") 1800000000000;
        ReqStats 1800000000000] ∅).1 =
    [RespGenerate
       (GenOk (signed_url "/videos/intro.mp4" sample_token 1700000120 "USER_001")
          {| meta_filePath := "/videos/intro.mp4"; meta_userId := "USER_001";
             meta_expiresAt := 1700000120 |});
     RespMedia (MediaExpired 1700000120000);
     RespStats {| totalTokensGenerated := 0; activeTokens := 0 |}]
  ∧ insertions
      (run [sample_mint;
            ReqMedia "/media/videos/intro.mp4" (Some sample_token)
              (Some "1700000120") (Some "USER_001") 1800000000000;
            ReqStats 1800000000000] ∅).1 = 1%nat
  ∧ insertions
      (run [sample_mint;
            ReqGenerate (Some "/docs/a.pdf") (Some "USER_002")
              {| entropy := λ _, Byte.x2a; now_expiry := 1800000000000;
                 now_created := 1800000000000; now_cleanup := 1800000000000 |};
            ReqStats 1800000000000] ∅).1 = 2%nat
  ∧ last
      (run [sample_mint;
            ReqGenerate (Some "/docs/a.pdf") (Some "USER_002")
              {| entropy := λ _, Byte.x2a; now_expiry := 1800000000000;
                 now_created := 1800000000000; now_cleanup := 1800000000000 |};
            ReqStats 1800000000000] ∅).1 =
    Some (RespStats {| totalTokensGenerated := 1; activeTokens := 1 |}).
Proof. by_evaluation. Qed.

End Reads.

(* ====================================================================== *)
(** * Round trip: a signed URL followed to the media endpoint              *)
(* ====================================================================== *)

Section RoundTrip.
Implicit Types (store : urlStore) (env : generate_env).

Lemma floor_div_mono (a b : Z) : a ≤ b → JS.floor_div a 1000 ≤ JS.floor_div b 1000.
Proof. intros H. unfold JS.floor_div. apply Z.div_le_mono; lia. Qed.

Lemma expiry_in_range (now : Z) :
  clock_ok now → - max_expiry ≤ getExpiryTimestamp now ≤ max_expiry.
Proof.
  unfold clock_ok, getExpiryTimestamp, JS.floor_div, JS.max_time_value, max_expiry.
  intros [Hlo Hhi].
  pose proof (Z.div_le_mono _ _ 1000 ltac:(lia) Hlo) as H1.
  pose proof (Z.div_le_mono _ _ 1000 ltac:(lia) Hhi) as H2.
  change ((- (8640000000000000)) `div` 1000) with (-8640000000000) in H1.
  change ((8640000000000000 - 120000) `div` 1000) with 8639999999880 in H2.
  lia.
Qed.

(** C9: a valid pair is minted and the signed URL is followed at once:
    the request carries the path, token, [expires] value and user id that
    the URL is made of, and reaches the handler no earlier than the mint
    read its clock and before the expiry second.  The redeem is granted
    and the remaining time is more than 0 and at most 120 seconds; it is
    exactly 120 when the request arrives within the second of the mint. *)
Theorem mint_then_redeem_granted (fp uid : string) env store (now : Z) :
  isValidFilePath fp = true → isValidUserId uid = true →
  clock_ok (now_expiry env) →
  now_expiry env ≤ now_cleanup env → now_cleanup env ≤ now →
  JS.floor_div now 1000 < JS.floor_div (now_expiry env) 1000 + 120 →
  ∃ token expiresAt remaining,
    (generate_signed_url (Some fp) (Some uid) env store).1 =
      GenOk (signed_url fp token expiresAt uid)
        {| meta_filePath := fp; meta_userId := uid; meta_expiresAt := expiresAt |}
    ∧ media ("/media" +:+ fp) (Some token) (Some (JS.num_to_string expiresAt))
        (Some uid) now (generate_signed_url (Some fp) (Some uid) env store).2 =
      (MediaGranted fp uid (JS.Num remaining) (expiresAt * 1000),
       (generate_signed_url (Some fp) (Some uid) env store).2)
    ∧ 0 < remaining ≤ 120
    ∧ (JS.floor_div now 1000 = JS.floor_div (now_expiry env) 1000 →
       remaining = 120).
Proof.
  intros Hf Hu Hclock Hc1 Hc2 Hnow.
  rewrite (generate_valid fp uid env store Hf Hu). simpl.
  set (token := generateToken (entropy env)).
  set (expiresAt := getExpiryTimestamp (now_expiry env)).
  set (d := {| filePath := fp; userId := uid; expires := expiresAt;
               createdAt := now_created env |}).
  exists token, expiresAt, (expiresAt - JS.floor_div now 1000).
  assert (expiresAt = JS.floor_div (now_expiry env) 1000 + 120) as Hexp by done.
  pose proof (floor_div_mono _ _ Hc1) as Hm1.
  pose proof (floor_div_mono _ _ Hc2) as Hm2.
  split; [done|]. split; [|split; lia].
  apply (media_granted_present _ token _ uid now _ d expiresAt).
  - apply token_nonempty, generateToken_length.
  - by apply valid_userId_present.
  - apply cleanup_lookup. rewrite lookup_insert_eq. split; [done|]. simpl. lia.
  - symmetry. apply JSFacts.remove_first_media.
  - done.
  - apply JSFacts.parseInt_num_to_string.
  - lia.
  - by apply expiry_in_range.
Qed.

Lemma mint_then_redeem_granted_witness :
  ∃ token expiresAt remaining,
    (generate_signed_url (Some "/videos/intro.mp4") (Some "USER_001")
       (env_at 1700000000000) ∅).1 =
      GenOk (signed_url "/videos/intro.mp4" token expiresAt "USER_001")
        {| meta_filePath := "/videos/intro.mp4"; meta_userId := "USER_001";
           meta_expiresAt := expiresAt |}
    ∧ media ("/media" +:+ "/videos/intro.mp4") (Some token)
        (Some (JS.num_to_string expiresAt)) (Some "USER_001") 1700000000500
        (generate_signed_url (Some "/videos/intro.mp4") (Some "USER_001")
           (env_at 1700000000000) ∅).2 =
      (MediaGranted "/videos/intro.mp4" "USER_001" (JS.Num remaining)
         (expiresAt * 1000),
       (generate_signed_url (Some "/videos/intro.mp4") (Some "USER_001")
          (env_at 1700000000000) ∅).2)
    ∧ 0 < remaining ≤ 120
    ∧ (JS.floor_div 1700000000500 1000 = JS.floor_div 1700000000000 1000 →
       remaining = 120).
Proof.
  apply (mint_then_redeem_granted "/videos/intro.mp4" "USER_001"
           (env_at 1700000000000) ∅ 1700000000500).
  - vm_compute. reflexivity.
  - vm_compute. reflexivity.
  - unfold clock_ok, JS.max_time_value. simpl. lia.
  - simpl. lia.
  - simpl. lia.
  - vm_compute. reflexivity.
Defined.

End RoundTrip.

(* ====================================================================== *)
(** * The media type of a file that passed validation                      *)
(* ====================================================================== *)

Section MediaType.
Import JSString.

Lemma string_of_list_ascii_app (a b : list ascii) :
  string_of_list_ascii (a ++ b) = string_of_list_ascii a +:+ string_of_list_ascii b.
Proof. induction a as [|c a IH]; simpl; [done | by rewrite IH]. Qed.

Lemma split_not_nil (sep : ascii) (s : string) : split sep s ≠ [].
Proof.
  destruct s as [|c s]; simpl; [done|].
  destruct (Ascii.eqb c sep); [done|]. by destruct (split sep s).
Qed.

Lemma split_without_separator (sep : ascii) (s : string) :
  string_forall (λ c, negb (Ascii.eqb c sep)) s = true → split sep s = [s].
Proof.
  induction s as [|c s IH]; simpl; [done|].
  intros [Hc Hs]%andb_true_iff. apply negb_true_iff in Hc.
  by rewrite Hc, (IH Hs).
Qed.

(** The pieces of a string that ends with a separator and a tail are
    pieces of the front, then the pieces of the tail. *)
Lemma split_before_separator (sep : ascii) (front tail : string) :
  ∃ pieces, pieces ≠ []
    ∧ split sep (front +:+ String sep tail) = pieces ++ split sep tail.
Proof.
  induction front as [|c front (pieces & Hne & IH)]; simpl.
  - rewrite Ascii.eqb_refl. by exists [EmptyString].
  - destruct (Ascii.eqb c sep).
    + exists (EmptyString :: pieces). by rewrite IH.
    + rewrite IH. destruct pieces as [|piece pieces]; [done|].
      by exists (String c piece :: pieces).
Qed.

Lemma pop_split_tail (sep : ascii) (front tail : string) :
  string_forall (λ c, negb (Ascii.eqb c sep)) tail = true →
  pop (split sep (front +:+ String sep tail)) = Some tail.
Proof.
  intros Htail. destruct (split_before_separator sep front tail) as (pieces & _ & ->).
  rewrite (split_without_separator sep tail Htail). unfold pop.
  by rewrite last_snoc.
Qed.

Lemma alnum_lower (c : ascii) :
  is_alnum (Regex.to_lower c) = true →
  is_alnum c = true ∧ lower_char c = Regex.to_lower c ∧ c ≠ "."%char.
Proof.
  pose proof (RegexFacts.all_ascii_spec
    (λ c, implb (is_alnum (Regex.to_lower c))
            (is_alnum c && Ascii.eqb (lower_char c) (Regex.to_lower c)
             && negb (Ascii.eqb c ".")))
    ltac:(by vm_compute) c) as H.
  simpl in H. intros Hc. rewrite Hc in H. simpl in H.
  apply andb_true_iff in H as [[H1 H2]%andb_true_iff H3].
  apply Ascii.eqb_eq in H2. apply negb_true_iff, Ascii.eqb_neq in H3. done.
Qed.

Lemma allowed_extension_alnum (ext : list ascii) :
  Spec.lower_case ext ∈ Spec.allowed_extensions →
  Forall (λ c, is_alnum (Regex.to_lower c) = true) ext.
Proof.
  intros Hin.
  assert (Forall (λ c, is_alnum c = true) (map Regex.to_lower ext)) as H.
  { unfold Spec.lower_case in Hin.
    rewrite <- (list_ascii_of_string_of_list_ascii (map Regex.to_lower ext)).
    revert Hin. generalize (string_of_list_ascii (map Regex.to_lower ext)).
    intros e He. unfold Spec.allowed_extensions in He.
    repeat (apply elem_of_cons in He as [->|He]; [by repeat constructor|]).
    by apply elem_of_nil in He. }
  by apply Forall_map in H.
Qed.

Lemma toLowerCase_extension (ext : list ascii) :
  Forall (λ c, is_alnum (Regex.to_lower c) = true) ext →
  toLowerCase (string_of_list_ascii ext) = Spec.lower_case ext
  ∧ string_forall (λ c, negb (Ascii.eqb c ".")) (string_of_list_ascii ext) = true.
Proof.
  unfold Spec.lower_case. induction 1 as [|c ext Hc _ [IH1 IH2]]; simpl; [done|].
  destruct (alnum_lower c Hc) as (_ & Hlow & Hdot).
  rewrite Hlow, IH1, IH2. split; [done|].
  apply andb_true_iff. split; [|done]. by apply negb_true_iff, Ascii.eqb_neq.
Qed.

(** The extension the handler extracts from a validated path is the
    allowed extension the pattern matched, in lower case. *)
Lemma fileExtension_valid (fp : string) :
  isValidFilePath fp = true →
  ∃ ext, fileExtension fp = Some ext ∧ ext ∈ media_extensions.
Proof.
  intros (stem & ext & Heq & _ & _ & Hext)%ValidatorFacts.isValidFilePath_shape.
  exists (Spec.lower_case ext). split; [|done].
  destruct (toLowerCase_extension ext (allowed_extension_alnum ext Hext))
    as [Hlow Hdot].
  apply (f_equal string_of_list_ascii) in Heq.
  rewrite string_of_list_ascii_of_string in Heq. subst fp.
  change (string_of_list_ascii ("/"%char :: stem ++ "."%char :: ext))
    with (String "/" (string_of_list_ascii (stem ++ "."%char :: ext))).
  rewrite string_of_list_ascii_app.
  change (String "/" (string_of_list_ascii stem +:+ string_of_list_ascii ("."%char :: ext)))
    with (String "/" (string_of_list_ascii stem) +:+ String "." (string_of_list_ascii ext)).
  unfold fileExtension. rewrite (pop_split_tail "." _ _ Hdot). simpl.
  by rewrite Hlow.
Qed.

(** X1: for every path that [isValidFilePath] accepts, the handler's
    extension extraction succeeds and yields one of the nine allowed
    extensions in lower case, and [getMediaType] classifies it as video
    (mp4, avi, mov), audio (mp3, wav), image (jpg, jpeg, png) or document
    (pdf): the fallback ['file'] is never reported for a validated path. *)
Theorem media_type_of_valid_path (fp : string) :
  isValidFilePath fp = true →
  ∃ ext,
    fileExtension fp = Some ext
    ∧ mediaType fp = Some (getMediaType ext)
    ∧ ((ext ∈ ["mp4"; "avi"; "mov"] ∧ getMediaType ext = "video")
       ∨ (ext ∈ ["mp3"; "wav"] ∧ getMediaType ext = "audio")
       ∨ (ext ∈ ["jpg"; "jpeg"; "png"] ∧ getMediaType ext = "image")
       ∨ (ext = "pdf" ∧ getMediaType ext = "document"))
    ∧ getMediaType ext ≠ "file".
Proof.
  intros (ext & Hfe & Hin)%fileExtension_valid.
  exists ext. split; [done|]. split; [unfold mediaType; by rewrite Hfe|].
  unfold media_extensions in Hin.
  repeat (apply elem_of_cons in Hin as [->|Hin];
          [split; [|done];
           first [ left; split; [set_solver | reflexivity]
                 | right; left; split; [set_solver | reflexivity]
                 | right; right; left; split; [set_solver | reflexivity]
                 | right; right; right; split; reflexivity ] |]).
  by apply elem_of_nil in Hin.
Qed.

Lemma media_type_of_valid_path_witness :
  ∃ ext,
    fileExtension "/videos/Intro.v2.MoV" = Some ext
    ∧ mediaType "/videos/Intro.v2.MoV" = Some (getMediaType ext)
    ∧ ((ext ∈ ["mp4"; "avi"; "mov"] ∧ getMediaType ext = "video")
       ∨ (ext ∈ ["mp3"; "wav"] ∧ getMediaType ext = "audio")
       ∨ (ext ∈ ["jpg"; "jpeg"; "png"] ∧ getMediaType ext = "image")
       ∨ (ext = "pdf" ∧ getMediaType ext = "document"))
    ∧ getMediaType ext ≠ "file".
Proof.
  apply (media_type_of_valid_path "/videos/Intro.v2.MoV").
  vm_compute. reflexivity.
Defined.

End MediaType.

(* ====================================================================== *)
(** * What an answer of the media endpoint tells                           *)
(* ====================================================================== *)

Section MediaAnswers.
Implicit Types (store : urlStore) (d : tokenData) (path : string).
Implicit Types (t e u : option string).

Lemma falsy_false_Some (v : option string) :
  JS.falsy v = false → ∃ s, v = Some s ∧ JS.falsy (Some s) = false.
Proof. destruct v as [s|]; [by exists s | done]. Qed.

Lemma date_some_inv (n : JS.num) (x : Z) :
  JS.Date_toISOString (JS.mul n 1000) = Some x →
  ∃ z, n = JS.Num z ∧ x = z * 1000 ∧ - max_expiry ≤ z ≤ max_expiry.
Proof.
  destruct n as [|z]; simpl; [done|]. unfold JS.max_time_value, max_expiry.
  destruct (_ && _) eqn:H; [|done]. intros [= <-].
  apply andb_true_iff in H as [H1%Z.leb_le H2%Z.leb_le].
  exists z. split; [done|]. split; [done|]. lia.
Qed.

Lemma string_eqb_false_neq (a b : string) :
  negb (String.eqb a b) = false ↔ a = b.
Proof. rewrite negb_false_iff. apply String.eqb_eq. Qed.

(** Every way the handler can run, by the tests it makes in order. *)
Lemma media_run path t e u now store :
  (JS.falsy t = true ∨ JS.falsy e = true ∨ JS.falsy u = true)
    ∧ media path t e u now store =
      (MediaError 400 "Invalid signed URL: Missing required parameters", store)
  ∨ ∃ tok ev uv,
      t = Some tok ∧ e = Some ev ∧ u = Some uv
      ∧ JS.falsy t = false ∧ JS.falsy e = false ∧ JS.falsy u = false
      ∧ (store !! tok = None
           ∧ media path t e u now store =
             (MediaError 401 "Invalid or expired token", store)
         ∨ ∃ d, store !! tok = Some d
             ∧ media path t e u now store =
               if JS.gt (JS.floor_div now 1000) (JS.parseInt ev) then
                 match JS.Date_toISOString (JS.mul (JS.parseInt ev) 1000) with
                 | Some expiredAt => (MediaExpired expiredAt, delete tok store)
                 | None =>
                     (MediaError 500 "Internal server error while accessing media",
                      delete tok store)
                 end
               else if negb (String.eqb (filePath d) (JS.remove_first "/media" path))
                       || negb (String.eqb (userId d) uv) then
                 (MediaError 403 "Access denied", store)
               else
                 match JS.Date_toISOString (JS.mul (JS.parseInt ev) 1000) with
                 | Some expiresAt =>
                     (MediaGranted (JS.remove_first "/media" path) uv
                        (JS.sub (JS.parseInt ev) (JS.floor_div now 1000)) expiresAt,
                      store)
                 | None =>
                     (MediaError 500 "Internal server error while accessing media",
                      store)
                 end).
Proof.
  destruct (JS.falsy t) eqn:Ht.
  { left. split; [by left|]. unfold media. by rewrite Ht. }
  destruct (JS.falsy e) eqn:He.
  { left. split; [by right; left|]. unfold media. by rewrite Ht, He. }
  destruct (JS.falsy u) eqn:Hu.
  { left. split; [by right; right|]. unfold media. by rewrite Ht, He, Hu. }
  right.
  destruct (falsy_false_Some t Ht) as (tok & -> & Htok).
  destruct (falsy_false_Some e He) as (ev & -> & Hev).
  destruct (falsy_false_Some u Hu) as (uv & -> & Huv).
  exists tok, ev, uv. repeat (split; [done|]).
  destruct (store !! tok) as [d|] eqn:Hd.
  - right. exists d. split; [done|]. by apply media_found.
  - left. split; [done|]. by apply media_unknown_token.
Qed.

(** A grant, read backwards. *)
Lemma media_granted_inv path t e u now store f' who r x :
  (media path t e u now store).1 = MediaGranted f' who r x →
  ∃ tok d z,
    t = Some tok ∧ store !! tok = Some d
    ∧ filePath d = JS.remove_first "/media" path ∧ f' = filePath d
    ∧ u = Some (userId d) ∧ who = userId d
    ∧ JS.falsy e = false ∧ JS.parseInt (str e) = JS.Num z
    ∧ JS.floor_div now 1000 ≤ z ≤ max_expiry
    ∧ r = JS.Num (z - JS.floor_div now 1000) ∧ x = z * 1000
    ∧ (media path t e u now store).2 = store.
Proof.
  destruct (media_run path t e u now store)
    as [[_ ->]|(tok & ev & uv & -> & -> & -> & _ & He & _ & [[_ ->]|(d & Hd & ->)])];
    [done..|].
  destruct (JS.gt _ _) eqn:Hgt.
  { by destruct (JS.Date_toISOString _). }
  destruct (negb _ || negb _) eqn:Hbind; [done|].
  apply orb_false_iff in Hbind as [Hf%string_eqb_false_neq Hu%string_eqb_false_neq].
  destruct (JS.Date_toISOString _) as [x0|] eqn:Hdate; [|done].
  apply date_some_inv in Hdate as (z & Hz & -> & Hrange).
  simpl. intros [= <- <- <- <-]. rewrite Hz in Hgt. simpl in Hgt.
  apply Z.ltb_ge in Hgt.
  exists tok, d, z. rewrite Hz, Hf, Hu. simpl.
  repeat (split; [done|]). split; [lia|]. done.
Qed.

(** X2: the media endpoint grants access only for a token that is in the
    store, against the path and user id stored with it: a grant means the
    three parameters were present, the stored user id equals the [userId]
    parameter, the stored path equals the request path without its first
    ["/media"], and the [expires] parameter parsed to a second [z] not
    before the current one.  The remaining time reported is [z] minus the
    current second, never negative, and the store is unchanged. *)
Theorem granted_only_for_stored_binding path t e u now store f' who r x :
  (media path t e u now store).1 = MediaGranted f' who r x →
  ∃ tok d z,
    t = Some tok ∧ store !! tok = Some d
    ∧ filePath d = JS.remove_first "/media" path ∧ f' = filePath d
    ∧ u = Some (userId d) ∧ who = userId d
    ∧ JS.parseInt (str e) = JS.Num z
    ∧ r = JS.Num (z - JS.floor_div now 1000) ∧ 0 ≤ z - JS.floor_div now 1000
    ∧ x = z * 1000
    ∧ (media path t e u now store).2 = store.
Proof.
  intros (tok & d & z & Ht & Hd & Hp & Hf & Hu & Hwho & _ & Hz & Hnow & Hr & Hx & Hs)
    %media_granted_inv.
  exists tok, d, z. repeat (split; [done|]). split; [lia|]. done.
Qed.

Lemma granted_only_for_stored_binding_witness :
  ∃ tok d z,
    Some sample_token = Some tok ∧ sample_store !! tok = Some d
    ∧ filePath d = JS.remove_first "/media" "/media/videos/intro.mp4"
    ∧ "/videos/intro.mp4" = filePath d
    ∧ Some "USER_001" = Some (userId d) ∧ "USER_001" = userId d
    ∧ JS.parseInt (str (Some "1700000120")) = JS.Num z
    ∧ JS.Num 60 = JS.Num (z - JS.floor_div 1700000060000 1000)
    ∧ 0 ≤ z - JS.floor_div 1700000060000 1000
    ∧ 1700000120000 = z * 1000
    ∧ (media "/media/videos/intro.mp4" (Some sample_token) (Some "1700000120")
         (Some "USER_001") 1700000060000 sample_store).2 = sample_store.
Proof.
  apply (granted_only_for_stored_binding "/media/videos/intro.mp4"
    (Some sample_token) (Some "1700000120") (Some "USER_001") 1700000060000
    sample_store "/videos/intro.mp4" "USER_001" (JS.Num 60) 1700000120000).
  vm_compute. reflexivity.
Defined.

Lemma media_only_deletes_presented_token_aux path t e u now store :
  (media path t e u now store).2 = store
  ∨ ∃ tok, (media path t e u now store).2 = delete tok store.
Proof.
  destruct (media_run path t e u now store)
    as [[_ ->]|(tok & ev & uv & -> & -> & -> & _ & _ & _ & [[_ ->]|(d & Hd & ->)])];
    [by left..|].
  destruct (JS.gt _ _).
  - right. exists tok. by destruct (JS.Date_toISOString _).
  - left. destruct (negb _ || negb _); [done|]. by destruct (JS.Date_toISOString _).
Qed.

(** X3: the media endpoint never adds an entry and never changes a
    binding.  It leaves the store as it was, except that it deletes the
    entry of the presented token when the [expires] parameter parses to a
    second before the current one; then that entry, and nothing else, is
    gone. *)
Theorem media_only_deletes_presented_token path t e u now store :
  ((media path t e u now store).2 = store
   ∨ ∃ tok d z,
       t = Some tok ∧ store !! tok = Some d
       ∧ JS.parseInt (str e) = JS.Num z ∧ z < JS.floor_div now 1000
       ∧ (media path t e u now store).2 = delete tok store)
  ∧ (∀ k v, (media path t e u now store).2 !! k = Some v → store !! k = Some v)
  ∧ (∀ k, Some k ≠ t → (media path t e u now store).2 !! k = store !! k).
Proof.
  assert ((media path t e u now store).2 = store
          ∨ ∃ tok d z,
              t = Some tok ∧ store !! tok = Some d
              ∧ JS.parseInt (str e) = JS.Num z ∧ z < JS.floor_div now 1000
              ∧ (media path t e u now store).2 = delete tok store) as H.
  { destruct (media_run path t e u now store)
      as [[_ ->]|(tok & ev & uv & -> & -> & -> & _ & _ & _ & [[_ ->]|(d & Hd & ->)])];
      [by left..|].
    destruct (JS.gt _ _) eqn:Hgt.
    - right. destruct (JS.parseInt ev) as [|z] eqn:Hz; [done|].
      simpl in Hgt. apply Z.ltb_lt in Hgt.
      exists tok, d, z. simpl str. rewrite Hz. repeat (split; [done|]).
      by destruct (JS.Date_toISOString _).
    - left. destruct (negb _ || negb _); [done|].
      by destruct (JS.Date_toISOString _). }
  split; [done|]. split.
  - intros k v. destruct H as [->|(tok & d & z & _ & _ & _ & _ & ->)]; [done|].
    intros Hk. by apply lookup_delete_Some in Hk as [_ ?].
  - intros k Hk. destruct H as [->|(tok & d & z & -> & _ & _ & _ & ->)]; [done|].
    apply lookup_delete_ne. congruence.
Qed.

(** X4: which rejection the media endpoint answers.  It answers 400 exactly
    when [token], [expires] or [userId] is absent or empty; 401 exactly when
    the three are present and the token is not in the store, whatever the
    other two say; 403 exactly when the three are present, the token is
    stored, the [expires] parameter does not parse to a second before the
    current one, and the stored path or user id differs from the
    request's.  None of the three changes the store. *)
Theorem media_rejection_table path t e u now store :
  ((∃ msg, (media path t e u now store).1 = MediaError 400 msg) ↔
     JS.falsy t = true ∨ JS.falsy e = true ∨ JS.falsy u = true)
  ∧ ((∃ msg, (media path t e u now store).1 = MediaError 401 msg) ↔
     JS.falsy t = false ∧ JS.falsy e = false ∧ JS.falsy u = false
     ∧ store !! str t = None)
  ∧ ((∃ msg, (media path t e u now store).1 = MediaError 403 msg) ↔
     JS.falsy t = false ∧ JS.falsy e = false ∧ JS.falsy u = false
     ∧ ∃ d, store !! str t = Some d
          ∧ JS.gt (JS.floor_div now 1000) (JS.parseInt (str e)) = false
          ∧ (filePath d ≠ JS.remove_first "/media" path ∨ userId d ≠ str u))
  ∧ (∀ status msg, (media path t e u now store).1 = MediaError status msg →
     status = 400 ∨ status = 401 ∨ status = 403 →
     (media path t e u now store).2 = store).
Proof.
  destruct (media_run path t e u now store)
    as [[Hmiss ->]|(tok & ev & uv & -> & -> & -> & Ht & He & Hu
                    & [[Hd ->]|(d & Hd & ->)])]; simpl str.
  - split; [split; [by intros _ | intros _; by eexists]|].
    split; [split; [by intros [? [=]]
                   | intros (Ht & He & Hu & _); destruct Hmiss as [H|[H|H]]; congruence]|].
    split; [split; [by intros [? [=]]
                   | intros (Ht & He & Hu & _); destruct Hmiss as [H|[H|H]]; congruence]|].
    done.
  - split; [split; [by intros [? [=]] | intros [H|[H|H]]; congruence]|].
    split; [split; [by intros _ | intros _; by eexists]|].
    split; [split; [by intros [? [=]]
                   | intros (_ & _ & _ & d & Hd' & _); congruence]|].
    done.
  - assert (¬ (JS.falsy (Some tok) = true ∨ JS.falsy (Some ev) = true
               ∨ JS.falsy (Some uv) = true)) as Hpresent
      by (intros [H|[H|H]]; congruence).
    assert (¬ (JS.falsy (Some tok) = false ∧ JS.falsy (Some ev) = false
               ∧ JS.falsy (Some uv) = false ∧ store !! tok = None)) as Hfound
      by (intros (_ & _ & _ & H); congruence).
    destruct (JS.gt _ _) eqn:Hgt.
    { destruct (JS.Date_toISOString _) as [y|]; simpl.
      all: split; [split; [by intros [? [=]] | done]|].
      all: split; [split; [by intros [? [=]] | done]|].
      all: split; [split; [by intros [? [=]]
                          | intros (_ & _ & _ & d' & _ & H & _); congruence]|].
      all: intros status msg [= <- <-] [|[|]]; done. }
    destruct (negb _ || negb _) eqn:Hbind; simpl.
    { split; [split; [by intros [? [=]] | done]|].
      split; [split; [by intros [? [=]] | done]|].
      split; [|done]. split; [|intros _; by eexists].
      intros _. repeat (split; [done|]). exists d. repeat (split; [done|]).
      apply orb_true_iff in Hbind as [H|H]; [left | right];
        by apply negb_true_iff, String.eqb_neq in H. }
    apply orb_false_iff in Hbind as [Hf%string_eqb_false_neq Hb%string_eqb_false_neq].
    destruct (JS.Date_toISOString _) as [y|]; simpl.
    all: split; [split; [by intros [? [=]] | done]|].
    all: split; [split; [by intros [? [=]] | done]|].
    all: split; [split; [by intros [? [=]]|]|done].
    all: intros (_ & _ & _ & d0 & Hd0 & _ & Hmis).
    all: rewrite Hd in Hd0; injection Hd0 as <-; by destruct Hmis.
Qed.

End MediaAnswers.

(* ====================================================================== *)
(** * Grants are repeatable and name a known media type                    *)
(* ====================================================================== *)

Section Grants.
Implicit Types (store : urlStore) (d : tokenData) (path : string).

Lemma getMediaType_allowed (ext : string) :
  ext ∈ media_extensions →
  getMediaType ext ∈ ["video"; "audio"; "image"; "document"].
Proof.
  unfold media_extensions. intros Hin.
  repeat (apply elem_of_cons in Hin as [->|Hin]; [vm_compute; set_solver|]).
  by apply elem_of_nil in Hin.
Qed.

(** X5: a token is not consumed by a grant.  When a request is granted,
    the same request is granted again at every later instant up to the
    second its [expires] parameter names, with the remaining time reduced
    by the seconds elapsed, and the store stays as it was. *)
Theorem grant_is_repeatable path (t e u : option string) now store
    (f' who : string) (r x : Z) (now' : Z) :
  media path t e u now store = (MediaGranted f' who (JS.Num r) x, store) →
  JS.floor_div now' 1000 ≤ JS.floor_div now 1000 + r →
  media path t e u now' store =
  (MediaGranted f' who
     (JS.Num (r - (JS.floor_div now' 1000 - JS.floor_div now 1000))) x,
   store).
Proof.
  intros Hgrant Hnow'.
  destruct (media_granted_inv path t e u now store f' who (JS.Num r) x)
    as (tok & d & z & -> & Hd & Hp & -> & -> & -> & He & Hz & Hrange & [= ->] & -> & _).
  { by rewrite Hgrant. }
  destruct (falsy_false_Some e He) as (ev & -> & Hev). simpl in Hz.
  assert (JS.falsy (Some tok) = false ∧ JS.falsy (Some (userId d)) = false)
    as [Htok Hu].
  { unfold media in Hgrant.
    destruct (JS.falsy (Some tok)); [done|].
    destruct (JS.falsy (Some ev)); [done|].
    by destruct (JS.falsy (Some (userId d))). }
  rewrite (media_found path tok ev (userId d) now' store d Htok Hev Hu Hd).
  rewrite (media_found path tok ev (userId d) now store d Htok Hev Hu Hd) in Hgrant.
  rewrite Hz in *. simpl JS.gt in *.
  destruct (z <? JS.floor_div now 1000) eqn:Hlt.
  { by destruct (JS.Date_toISOString _). }
  replace (z <? JS.floor_div now' 1000) with false
    by (symmetry; apply Z.ltb_ge; lia).
  destruct (negb _ || negb _); [done|].
  destruct (JS.Date_toISOString _); [|done].
  injection Hgrant as <-. simpl. f_equal. f_equal; [f_equal; lia | done].
Qed.

Lemma grant_is_repeatable_witness :
  media "/media/videos/intro.mp4" (Some sample_token) (Some "1700000120")
    (Some "USER_001") 1700000100999 sample_store =
  (MediaGranted "/videos/intro.mp4" "USER_001"
     (JS.Num (60 - (JS.floor_div 1700000100999 1000 - JS.floor_div 1700000060000 1000)))
     1700000120000,
   sample_store).
Proof.
  apply (grant_is_repeatable "/media/videos/intro.mp4" (Some sample_token)
    (Some "1700000120") (Some "USER_001") 1700000060000 sample_store
    "/videos/intro.mp4" "USER_001" 60 1700000120000 1700000100999).
  - apply (media_granted "/media/videos/intro.mp4" sample_token "1700000120"
      "USER_001" 1700000060000 sample_store
      {| filePath := "/videos/intro.mp4"; userId := "USER_001";
         expires := 1700000120; createdAt := 1700000000000 |} 1700000120
      sample_store_reachable); [vm_compute; reflexivity | reflexivity..
      | vm_compute; reflexivity | vm_compute; discriminate
      | unfold max_expiry; lia].
  - vm_compute. discriminate.
Defined.

(** X6: in every store the process can hold, a grant is for a path that
    passed [isValidFilePath] at mint time, so the media type the handler
    computes for it is video, audio, image or document: the entries
    [webm], [ogg], [aac], [gif], [webp], [doc], [docx] of [getMediaType]
    and its ['file'] fallback are never reached from a grant. *)
Theorem granted_media_type_known path (t e u : option string) now store
    (f' who : string) (r : JS.num) (x : Z) :
  reachable store →
  (media path t e u now store).1 = MediaGranted f' who r x →
  isValidFilePath f' = true
  ∧ ∃ ext, fileExtension f' = Some ext
      ∧ ext ∈ media_extensions
      ∧ mediaType f' = Some (getMediaType ext)
      ∧ getMediaType ext ∈ ["video"; "audio"; "image"; "document"].
Proof.
  intros Hr (tok & d & z & _ & Hd & _ & -> & _)%media_granted_inv.
  destruct (reachable_wf store Hr tok d Hd) as (_ & Hvalid & _).
  split; [done|].
  destruct (fileExtension_valid (filePath d) Hvalid) as (ext & Hext & Hin).
  exists ext. split; [done|]. split; [done|].
  split; [unfold mediaType; by rewrite Hext|]. by apply getMediaType_allowed.
Qed.

Lemma granted_media_type_known_witness :
  isValidFilePath "/videos/intro.mp4" = true
  ∧ ∃ ext, fileExtension "/videos/intro.mp4" = Some ext
      ∧ ext ∈ media_extensions
      ∧ mediaType "/videos/intro.mp4" = Some (getMediaType ext)
      ∧ getMediaType ext ∈ ["video"; "audio"; "image"; "document"].
Proof.
  apply (granted_media_type_known "/media/videos/intro.mp4" (Some sample_token)
    (Some "1700000120") (Some "USER_001") 1700000060000 sample_store
    "/videos/intro.mp4" "USER_001" (JS.Num 60) 1700000120000
    sample_store_reachable).
  vm_compute. reflexivity.
Defined.

End Grants.

(* ====================================================================== *)
(** * The validation and statistics endpoints                              *)
(* ====================================================================== *)

Section ValidateAndStats.
Implicit Types (store : urlStore) (d : tokenData).

(** X7: the validation endpoint answers valid only for a token that is in
    the store and whose stored expiry is not before the current second; the
    answer then carries the stored path, user id and expiry, a remaining
    time that is never negative, and the store is unchanged. *)
Theorem validate_token_valid_only_if_stored (t : option string) now store
    (f' who : string) (x r : Z) :
  (validate_token t now store).1 = ValValid f' who x r →
  ∃ tok d,
    t = Some tok ∧ store !! tok = Some d
    ∧ f' = filePath d ∧ who = userId d ∧ x = expires d
    ∧ r = expires d - JS.floor_div now 1000 ∧ 0 ≤ r
    ∧ (validate_token t now store).2 = store.
Proof.
  unfold validate_token. destruct (JS.falsy t) eqn:Ht; [done|].
  destruct (falsy_false_Some t Ht) as (tok & -> & _). simpl str.
  destruct (store !! tok) as [d|] eqn:Hd; [|done].
  destruct (Z.ltb_spec (expires d) (JS.floor_div now 1000)); [done|].
  simpl. intros [= <- <- <- <-]. exists tok, d. repeat (split; [done|]).
  split; [lia | done].
Qed.

Lemma validate_token_valid_only_if_stored_witness :
  ∃ tok d,
    Some sample_token = Some tok ∧ sample_store !! tok = Some d
    ∧ "/videos/intro.mp4" = filePath d ∧ "USER_001" = userId d
    ∧ 1700000120 = expires d
    ∧ 0 = expires d - JS.floor_div 1700000120999 1000 ∧ 0 ≤ 0
    ∧ (validate_token (Some sample_token) 1700000120999 sample_store).2 =
      sample_store.
Proof.
  apply (validate_token_valid_only_if_stored (Some sample_token) 1700000120999
    sample_store "/videos/intro.mp4" "USER_001" 1700000120 0).
  vm_compute. reflexivity.
Defined.

(** X8: a token whose stored expiry is before the current second is
    reported expired by the validation endpoint and deleted, which makes
    the store one entry smaller; from then on the endpoint reports the
    token not found, at any time, and changes nothing. *)
Theorem validate_token_evicts_once (tok : string) now store d :
  JS.falsy (Some tok) = false → store !! tok = Some d →
  expires d < JS.floor_div now 1000 →
  validate_token (Some tok) now store =
    (ValInvalid "Token expired", delete tok store)
  ∧ S (size (delete tok store)) = size store
  ∧ ∀ now',
      validate_token (Some tok) now' (delete tok store) =
      (ValInvalid "Token not found", delete tok store).
Proof.
  intros Htok Hd Hnow. split; [by apply (validate_token_expired tok now store d)|].
  split.
  - rewrite map_size_delete, Hd. simpl.
    assert (size store ≠ 0%nat); [|lia].
    intros Hsize%map_size_empty_iff. by rewrite Hsize in Hd.
  - intros now'. unfold validate_token. rewrite Htok. simpl str.
    by rewrite lookup_delete_eq.
Qed.

Lemma validate_token_evicts_once_witness :
  validate_token (Some sample_token) 1700000121000 sample_store =
    (ValInvalid "Token expired", delete sample_token sample_store)
  ∧ S (size (delete sample_token sample_store)) = size sample_store
  ∧ ∀ now',
      validate_token (Some sample_token) now' (delete sample_token sample_store) =
      (ValInvalid "Token not found", delete sample_token sample_store).
Proof.
  apply (validate_token_evicts_once sample_token 1700000121000 sample_store
    {| filePath := "/videos/intro.mp4"; userId := "USER_001";
       expires := 1700000120; createdAt := 1700000000000 |}).
  - reflexivity.
  - vm_compute. reflexivity.
  - vm_compute. reflexivity.
Defined.

Lemma count_active_antitone (cur cur' : Z) store :
  cur ≤ cur' → (count_active cur' store ≤ count_active cur store)%nat.
Proof.
  intros H. apply map_subseteq_size, map_filter_subseteq_ext.
  intros k v _. simpl. lia.
Qed.

(** X9: the statistics never report more active tokens than tokens in
    total, and the active count can only go down as time passes over an
    unchanged store. *)
Theorem stats_active_bounds (now now' : Z) store :
  now ≤ now' →
  (activeTokens (stats now' store) ≤ activeTokens (stats now store))%nat
  ∧ (activeTokens (stats now store) ≤ totalTokensGenerated (stats now store))%nat.
Proof.
  intros H. split.
  - apply count_active_antitone. unfold JS.floor_div. apply Z.div_le_mono; lia.
  - apply count_active_le_size.
Qed.

Lemma stats_active_bounds_witness :
  (activeTokens (stats 1700000121000 sample_store)
   ≤ activeTokens (stats 1700000000000 sample_store))%nat
  ∧ (activeTokens (stats 1700000000000 sample_store)
     ≤ totalTokensGenerated (stats 1700000000000 sample_store))%nat.
Proof.
  apply (stats_active_bounds 1700000000000 1700000121000 sample_store).
  lia.
Defined.

End ValidateAndStats.

(* ====================================================================== *)
(** * What a mint does to the other entries                                *)
(* ====================================================================== *)

Section MintAndStore.
Implicit Types (store : urlStore) (d : tokenData) (env : generate_env).

Lemma count_active_all (cur : Z) store :
  (∀ k v, store !! k = Some v → cur ≤ expires v) →
  count_active cur store = size store.
Proof.
  intros H. unfold count_active. f_equal. apply map_filter_id.
  intros k v Hk. simpl. by apply (H k v).
Qed.

(** X10: after a successful mint no entry of the store has an expiry
    before the second at which the cleanup loop read the clock, the new
    entry included; statistics taken at that second or before it report
    every stored token as active. *)
Theorem mint_leaves_only_live_entries (fp uid : string) env store :
  isValidFilePath fp = true → isValidUserId uid = true →
  (∀ k v, (generate_signed_url (Some fp) (Some uid) env store).2 !! k = Some v →
     JS.floor_div (now_cleanup env) 1000 ≤ expires v)
  ∧ (∀ now, JS.floor_div now 1000 ≤ JS.floor_div (now_cleanup env) 1000 →
     activeTokens (stats now (generate_signed_url (Some fp) (Some uid) env store).2) =
     totalTokensGenerated
       (stats now (generate_signed_url (Some fp) (Some uid) env store).2)).
Proof.
  intros Hf Hu. rewrite (generate_valid fp uid env store Hf Hu). simpl.
  assert (∀ k v,
    cleanup (JS.floor_div (now_cleanup env) 1000)
      (<[generateToken (entropy env) :=
           {| filePath := fp; userId := uid;
              expires := getExpiryTimestamp (now_expiry env);
              createdAt := now_created env |}]> store) !! k = Some v →
    JS.floor_div (now_cleanup env) 1000 ≤ expires v) as Hlive.
  { intros k v Hk. by apply cleanup_lookup in Hk as [_ ?]. }
  split; [done|]. intros now Hnow. apply count_active_all.
  intros k v Hk. specialize (Hlive k v Hk). lia.
Qed.

Lemma mint_leaves_only_live_entries_witness :
  (∀ k v, (generate_signed_url (Some "/docs/a.pdf") (Some "USER_002")
             (env_at 1800000000000) sample_store).2 !! k = Some v →
     JS.floor_div (now_cleanup (env_at 1800000000000)) 1000 ≤ expires v)
  ∧ (∀ now, JS.floor_div now 1000
            ≤ JS.floor_div (now_cleanup (env_at 1800000000000)) 1000 →
     activeTokens (stats now (generate_signed_url (Some "/docs/a.pdf")
                                (Some "USER_002") (env_at 1800000000000)
                                sample_store).2) =
     totalTokensGenerated
       (stats now (generate_signed_url (Some "/docs/a.pdf") (Some "USER_002")
                     (env_at 1800000000000) sample_store).2)).
Proof.
  apply (mint_leaves_only_live_entries "/docs/a.pdf" "USER_002"
    (env_at 1800000000000) sample_store).
  - vm_compute. reflexivity.
  - vm_compute. reflexivity.
Defined.

(** X11: a successful mint touches no other live entry.  A token other
    than the new one is in the store afterwards, with the same binding,
    exactly when it was in the store before and its expiry is not before
    the second of the cleanup loop; and the store grows by one entry at
    most. *)
Theorem mint_keeps_other_live_entries (fp uid : string) env store :
  isValidFilePath fp = true → isValidUserId uid = true →
  (∀ k v, k ≠ generateToken (entropy env) →
     (generate_signed_url (Some fp) (Some uid) env store).2 !! k = Some v ↔
     store !! k = Some v ∧ JS.floor_div (now_cleanup env) 1000 ≤ expires v)
  ∧ (size (generate_signed_url (Some fp) (Some uid) env store).2
     ≤ S (size store))%nat.
Proof.
  intros Hf Hu. rewrite (generate_valid fp uid env store Hf Hu). simpl. split.
  - intros k v Hk. by rewrite cleanup_lookup, lookup_insert_ne.
  - etrans; [apply map_subseteq_size, map_filter_subseteq|].
    rewrite map_size_insert. destruct (store !! _); simpl; lia.
Qed.

Lemma mint_keeps_other_live_entries_witness :
  (∀ k v, k ≠ generateToken (entropy (env_at 1700000060000)) →
     (generate_signed_url (Some "/docs/a.pdf") (Some "USER_002")
        (env_at 1700000060000) sample_store).2 !! k = Some v ↔
     sample_store !! k = Some v
     ∧ JS.floor_div (now_cleanup (env_at 1700000060000)) 1000 ≤ expires v)
  ∧ (size (generate_signed_url (Some "/docs/a.pdf") (Some "USER_002")
             (env_at 1700000060000) sample_store).2
     ≤ S (size sample_store))%nat.
Proof.
  apply (mint_keeps_other_live_entries "/docs/a.pdf" "USER_002"
    (env_at 1700000060000) sample_store).
  - vm_compute. reflexivity.
  - vm_compute. reflexivity.
Defined.

Lemma handle_size (req : request) store :
  (size (handle req store).2
   ≤ size store + (if is_insertion (handle req store).1 then 1 else 0))%nat.
Proof.
  destruct req as [f u env|t now|now|path t e u now]; simpl.
  - unfold generate_signed_url.
    destruct (JS.falsy f); [simpl; lia|]. destruct (JS.falsy u); [simpl; lia|].
    destruct (negb (isValidFilePath _)); [simpl; lia|].
    destruct (negb (isValidUserId _)); [simpl; lia|]. simpl.
    etrans; [apply map_subseteq_size, map_filter_subseteq|].
    rewrite map_size_insert. destruct (store !! _); simpl; lia.
  - unfold validate_token. destruct (JS.falsy t); [simpl; lia|].
    destruct (store !! str t) as [d|]; [|simpl; lia].
    destruct (expires d <? _); simpl; [|lia].
    pose proof (map_subseteq_size _ _ (delete_subseteq store (str t))). lia.
  - lia.
  - pose proof (media_only_deletes_presented_token_aux path t e u now store) as H.
    destruct (media path t e u now store) as [r s]. simpl in *.
    destruct H as [->|(tok & ->)]; [lia|].
    pose proof (map_subseteq_size _ _ (delete_subseteq store tok)). lia.
Qed.

End MintAndStore.

(* ====================================================================== *)
(** * Invariants of the store over whole runs                              *)
(* ====================================================================== *)

Section Runs.
Implicit Types (store : urlStore) (d : tokenData) (env : generate_env).

Lemma run_size (reqs : list request) store :
  (size (run reqs store).2 ≤ size store + insertions (run reqs store).1)%nat.
Proof.
  revert store. induction reqs as [|req reqs IH]; intros store; simpl; [lia|].
  pose proof (handle_size req store) as H1.
  destruct (handle req store) as [r s]. simpl in H1.
  pose proof (IH s) as H2. destruct (run reqs s) as [rs s']. simpl in *.
  unfold insertions in *. rewrite filter_cons.
  destruct (is_insertion r); [rewrite decide_True by done
                             | rewrite decide_False by done]; simpl; lia.
Qed.

(** X12: over every run of requests from the empty store of a fresh
    process, the total that the statistics report at the end is at most
    the number of insertions the run has made. *)
Theorem stats_total_at_most_insertions (reqs : list request) (now : Z) :
  (totalTokensGenerated (stats now (run reqs ∅).2)
   ≤ insertions (run reqs ∅).1)%nat.
Proof.
  simpl. pose proof (run_size reqs ∅) as H. by rewrite map_size_empty in H.
Qed.

Lemma string_forall_app (p : ascii → bool) (a b : string) :
  string_forall p (a +:+ b) = string_forall p a && string_forall p b.
Proof.
  induction a as [|c a IH]; simpl; [done|]. by rewrite IH, andb_assoc.
Qed.

Lemma toString_hex_chars (buf : list byte) :
  string_forall is_hex_char (JS.toString_hex buf) = true.
Proof.
  induction buf as [|b buf IH]; simpl; [done|].
  rewrite string_forall_app, IH, andb_true_r. by destruct b.
Qed.

(** A property of entries that holds of every entry a mint can insert holds
    of every entry of every reachable store. *)
Lemma reachable_entries (P : string → tokenData → Prop) :
  (∀ fp uid env, isValidFilePath fp = true → isValidUserId uid = true →
     P (generateToken (entropy env))
       {| filePath := fp; userId := uid;
          expires := getExpiryTimestamp (now_expiry env);
          createdAt := now_created env |}) →
  ∀ store, reachable store → map_Forall P store.
Proof.
  intros Hmint store [reqs <-].
  assert (∀ req s, map_Forall P s → map_Forall P (handle req s).2) as Hstep.
  { intros req s Hs. destruct req as [f u env0|t now|now|path t e u now]; simpl.
    - unfold generate_signed_url.
      destruct (JS.falsy f); [done|]. destruct (JS.falsy u); [done|].
      destruct (isValidFilePath (str f)) eqn:Hf; [|done].
      destruct (isValidUserId (str u)) eqn:Hu; [|done]. simpl.
      intros k v [Hk _]%cleanup_lookup.
      apply (map_Forall_insert_2 P s _ _ (Hmint _ _ env0 Hf Hu) Hs k v Hk).
    - unfold validate_token. destruct (JS.falsy t); [done|].
      destruct (s !! str t) as [d|]; [|done].
      destruct (expires d <? _); [|done]. by apply map_Forall_delete.
    - done.
    - pose proof (media_only_deletes_presented_token_aux path t e u now s) as H.
      destruct (media path t e u now s) as [r s']. simpl in *.
      destruct H as [->|(tok & ->)]; [done | by apply map_Forall_delete]. }
  generalize (map_Forall_empty P (M := gmap string) (A := tokenData)).
  generalize (∅ : urlStore). induction reqs as [|req reqs IH]; intros s Hs; [done|].
  simpl. pose proof (Hstep req s Hs) as H1. destruct (handle req s) as [r s1].
  pose proof (IH s1 H1) as H2. by destruct (run reqs s1).
Qed.

(** X13: in every store the process can hold, every key is a string of 64
    lower-case hex digits, and every entry holds a path and a user id that
    pass the two validators, hence are not empty, and an expiry that is a
    whole second of the clock plus 120. *)
Theorem store_entries_well_formed store (tok : string) d :
  reachable store → store !! tok = Some d →
  String.length tok = 64%nat
  ∧ string_forall is_hex_char tok = true
  ∧ isValidFilePath (filePath d) = true ∧ isValidUserId (userId d) = true
  ∧ filePath d ≠ EmptyString ∧ userId d ≠ EmptyString
  ∧ ∃ clock, expires d = JS.floor_div clock 1000 + 120.
Proof.
  intros Hr Hd. revert store Hr tok d Hd.
  apply (reachable_entries (λ tok d,
    String.length tok = 64%nat
    ∧ string_forall is_hex_char tok = true
    ∧ isValidFilePath (filePath d) = true ∧ isValidUserId (userId d) = true
    ∧ filePath d ≠ EmptyString ∧ userId d ≠ EmptyString
    ∧ ∃ clock, expires d = JS.floor_div clock 1000 + 120)).
  intros fp uid env Hf Hu. cbv beta.
  split; [apply generateToken_length|].
  split; [apply toString_hex_chars|].
  split; [done|]. split; [done|].
  split; [by apply ValidatorFacts.isValidFilePath_nonempty|].
  split; [by apply ValidatorFacts.isValidUserId_nonempty|].
  by exists (now_expiry env).
Qed.

Lemma store_entries_well_formed_witness :
  String.length sample_token = 64%nat
  ∧ string_forall is_hex_char sample_token = true
  ∧ isValidFilePath "/videos/intro.mp4" = true ∧ isValidUserId "USER_001" = true
  ∧ "/videos/intro.mp4" ≠ EmptyString ∧ "USER_001" ≠ EmptyString
  ∧ ∃ clock, 1700000120 = JS.floor_div clock 1000 + 120.
Proof.
  apply (store_entries_well_formed sample_store sample_token
    {| filePath := "/videos/intro.mp4"; userId := "USER_001";
       expires := 1700000120; createdAt := 1700000000000 |}
    sample_store_reachable).
  vm_compute. reflexivity.
Defined.

End Runs.

(* ====================================================================== *)
(** * The signed URL and the inputs it is made of                          *)
(* ====================================================================== *)

Section SignedUrl.
Implicit Types (store : urlStore) (d : tokenData) (env : generate_env).

(** X14: the expiry that a successful mint writes into the signed URL, as
    the decimal rendering after ["&expires="], is read back by [parseInt],
    as the media endpoint reads it, to the very number the mint returns as
    [expiresAt] and stores with the token, whatever the clock shows. *)
Theorem signed_url_expires_reads_back (fp uid : string) env store :
  isValidFilePath fp = true → isValidUserId uid = true →
  ∃ rendered expiresAt,
    (generate_signed_url (Some fp) (Some uid) env store).1 =
      GenOk (url_origin +:+ "/media" +:+ fp +:+ "?token="
             +:+ generateToken (entropy env) +:+ "&expires=" +:+ rendered
             +:+ "&userId=" +:+ uid)
        {| meta_filePath := fp; meta_userId := uid; meta_expiresAt := expiresAt |}
    ∧ JS.falsy (Some rendered) = false
    ∧ JS.parseInt rendered = JS.Num expiresAt.
Proof.
  intros Hf Hu. rewrite (generate_valid fp uid env store Hf Hu).
  exists (JS.num_to_string (getExpiryTimestamp (now_expiry env))),
         (getExpiryTimestamp (now_expiry env)).
  split; [done|].
  pose proof (JSFacts.parseInt_num_to_string (getExpiryTimestamp (now_expiry env)))
    as Hparse.
  split; [by eapply parseInt_present | done].
Qed.

Lemma signed_url_expires_reads_back_witness :
  ∃ rendered expiresAt,
    (generate_signed_url (Some "/videos/intro.mp4") (Some "USER_001")
       (env_at (-5000000)) ∅).1 =
      GenOk (url_origin +:+ "/media" +:+ "/videos/intro.mp4" +:+ "?token="
             +:+ generateToken (entropy (env_at (-5000000))) +:+ "&expires="
             +:+ rendered +:+ "&userId=" +:+ "USER_001")
        {| meta_filePath := "/videos/intro.mp4"; meta_userId := "USER_001";
           meta_expiresAt := expiresAt |}
    ∧ JS.falsy (Some rendered) = false
    ∧ JS.parseInt rendered = JS.Num expiresAt.
Proof.
  apply (signed_url_expires_reads_back "/videos/intro.mp4" "USER_001"
    (env_at (-5000000)) ∅).
  - vm_compute. reflexivity.
  - vm_compute. reflexivity.
Defined.

Lemma string_forall_Forall (p : ascii → bool) (s : string) :
  string_forall p s = true ↔ Forall (λ c, p c = true) (list_ascii_of_string s).
Proof.
  induction s as [|c s IH]; simpl.
  - split; [constructor | done].
  - rewrite andb_true_iff, IH, Forall_cons. done.
Qed.

(** X15: [isValidFilePath] looks at characters and the extension only.
    Whatever path-safe characters are put between a leading separator and
    a path it accepts, the longer path is accepted too; segments such as
    [..] are neither rejected nor resolved. *)
Theorem isValidFilePath_accepts_any_safe_prefix (pre fp : string) :
  string_forall Spec.path_safe pre = true →
  isValidFilePath fp = true →
  isValidFilePath ("/" +:+ pre +:+ fp) = true.
Proof.
  intros Hpre%string_forall_Forall
    (stem & ext & Heq & Hne & Hstem & Hext)%ValidatorFacts.isValidFilePath_shape.
  apply ValidatorFacts.isValidFilePath_shape.
  exists (list_ascii_of_string pre ++ "/"%char :: stem), ext.
  split; [|split; [by destruct (list_ascii_of_string pre)|split; [|done]]].
  - rewrite !JSFacts.list_ascii_app, Heq, <- app_assoc. done.
  - apply Forall_app. split; [done|]. by constructor.
Qed.

Lemma isValidFilePath_accepts_any_safe_prefix_witness :
  isValidFilePath ("/" +:+ "../.." +:+ "/etc/secret.pdf") = true.
Proof.
  apply (isValidFilePath_accepts_any_safe_prefix "../.." "/etc/secret.pdf").
  - vm_compute. reflexivity.
  - vm_compute. reflexivity.
Defined.

Lemma safe_not_delimiter (c : ascii) :
  Spec.path_safe c = true ∨ is_hex_char c = true → url_delimiter c = false.
Proof.
  pose proof (RegexFacts.all_ascii_spec
    (λ c, implb (Spec.path_safe c || is_hex_char c) (negb (url_delimiter c)))
    ltac:(by vm_compute) c) as H.
  simpl in H. intros Hc.
  assert (Spec.path_safe c || is_hex_char c = true) as Hor
    by (apply orb_true_iff; tauto).
  rewrite Hor in H. by apply negb_true_iff in H.
Qed.

Lemma identifier_path_safe (c : ascii) :
  Spec.identifier_char c = true → Spec.path_safe c = true.
Proof.
  unfold Spec.identifier_char, Spec.path_safe.
  intros [[->| ->]%orb_true_iff| ->]%orb_true_iff; simpl;
    rewrite ?orb_true_r; done.
Qed.

Lemma Forall_no_delimiter (p : ascii → bool) (s : string) :
  (∀ c, p c = true → url_delimiter c = false) →
  Forall (λ c, p c = true) (list_ascii_of_string s) →
  string_forall (λ c, negb (url_delimiter c)) s = true.
Proof.
  intros Hp H. apply string_forall_Forall.
  eapply Forall_impl; [exact H|]. intros c Hc. simpl. by rewrite (Hp c Hc).
Qed.

(** X16: none of the three values that a successful mint splices into the
    signed URL (the path, the token, the user id) contains a character
    that delimits or escapes parts of a URL ([? & = # % +] or a space), so
    the URL needs no encoding. *)
Theorem signed_url_parts_need_no_escaping (fp uid : string) (entropy : nat → byte) :
  isValidFilePath fp = true → isValidUserId uid = true →
  string_forall (λ c, negb (url_delimiter c)) fp = true
  ∧ string_forall (λ c, negb (url_delimiter c)) (generateToken entropy) = true
  ∧ string_forall (λ c, negb (url_delimiter c)) uid = true.
Proof.
  intros Hf%ValidatorFacts.isValidFilePath_shape [_ Hu]%ValidatorFacts.isValidUserId_shape.
  assert (Spec.media_path_words fp) as (_ & Hsafe & _)
    by (apply ValidatorFacts.media_path_words_shape; by left).
  split; [|split].
  - eapply Forall_no_delimiter; [|exact Hsafe]. intros c Hc.
    apply safe_not_delimiter. by left.
  - eapply Forall_no_delimiter; [|apply string_forall_Forall, toString_hex_chars].
    intros c Hc. apply safe_not_delimiter. by right.
  - eapply Forall_no_delimiter; [|exact Hu]. intros c Hc.
    apply safe_not_delimiter. left. by apply identifier_path_safe.
Qed.

Lemma signed_url_parts_need_no_escaping_witness :
  string_forall (λ c, negb (url_delimiter c)) "/videos/intro.mp4" = true
  ∧ string_forall (λ c, negb (url_delimiter c)) (generateToken sample_entropy) = true
  ∧ string_forall (λ c, negb (url_delimiter c)) "USER_001" = true.
Proof.
  apply (signed_url_parts_need_no_escaping "/videos/intro.mp4" "USER_001"
    sample_entropy).
  - vm_compute. reflexivity.
  - vm_compute. reflexivity.
Defined.

End SignedUrl.

(* ====================================================================== *)
(** * The last valid second, and what [parseInt] lets through              *)
(* ====================================================================== *)

Section Edges.
Implicit Types (store : urlStore) (d : tokenData).

Lemma floor_div_next_second (now : Z) :
  JS.floor_div (now + 1000) 1000 = JS.floor_div now 1000 + 1.
Proof.
  unfold JS.floor_div. replace (now + 1000) with (now + 1 * 1000) by lia.
  by rewrite Z.div_add by lia.
Qed.

(** X17: the three reads agree on the boundary.  During the very second
    that [expires] names, the validation endpoint still answers valid with
    0 seconds remaining, the media endpoint (followed with the issued
    [expires] value and the stored binding) still grants with 0 seconds
    remaining, and a cleanup loop keeps the entry; one second later the
    first two report the token expired and a cleanup loop drops it. *)
Theorem expiry_second_is_last_valid_second (tok : string) now store d :
  reachable store → store !! tok = Some d →
  - max_expiry ≤ expires d ≤ max_expiry →
  JS.floor_div now 1000 = expires d →
  (validate_token (Some tok) now store =
     (ValValid (filePath d) (userId d) (expires d) 0, store)
   ∧ media ("/media" +:+ filePath d) (Some tok)
       (Some (JS.num_to_string (expires d))) (Some (userId d)) now store =
     (MediaGranted (filePath d) (userId d) (JS.Num 0) (expires d * 1000), store)
   ∧ cleanup (JS.floor_div now 1000) store !! tok = Some d)
  ∧ (validate_token (Some tok) (now + 1000) store =
       (ValInvalid "Token expired", delete tok store)
     ∧ media ("/media" +:+ filePath d) (Some tok)
         (Some (JS.num_to_string (expires d))) (Some (userId d)) (now + 1000)
         store =
       (MediaExpired (expires d * 1000), delete tok store)
     ∧ cleanup (JS.floor_div (now + 1000) 1000) store !! tok = None).
Proof.
  intros Hr Hd Hrange Hnow.
  pose proof (reachable_token_present store tok d Hr Hd) as Htok.
  pose proof (reachable_userId_present store tok d Hr Hd) as Hu.
  pose proof (floor_div_next_second now) as Hnext.
  split; [split; [|split]|split; [|split]].
  - unfold validate_token. rewrite Htok. simpl str. rewrite Hd, Hnow.
    rewrite Z.ltb_irrefl. do 2 f_equal. lia.
  - rewrite (media_granted _ tok _ (userId d) now store d (expires d) Hr Hd);
      [do 3 f_equal; lia | by rewrite JSFacts.remove_first_media | done
      | apply JSFacts.parseInt_num_to_string | lia | done].
  - apply cleanup_lookup. split; [done | lia].
  - apply (validate_token_expired tok (now + 1000) store d); [done..|lia].
  - apply (media_expired _ tok _ (userId d) (now + 1000) store d (expires d));
      [done..| apply JSFacts.parseInt_num_to_string | lia | done].
  - destruct (cleanup _ store !! tok) as [d'|] eqn:Hc; [|done].
    apply cleanup_lookup in Hc as [Hd' Hlive]. rewrite Hd in Hd'.
    injection Hd' as <-. lia.
Qed.

Lemma expiry_second_is_last_valid_second_witness :
  (validate_token (Some sample_token) 1700000120999 sample_store =
     (ValValid "/videos/intro.mp4" "USER_001" 1700000120 0, sample_store)
   ∧ media ("/media" +:+ "/videos/intro.mp4") (Some sample_token)
       (Some (JS.num_to_string 1700000120)) (Some "USER_001") 1700000120999
       sample_store =
     (MediaGranted "/videos/intro.mp4" "USER_001" (JS.Num 0) (1700000120 * 1000),
      sample_store)
   ∧ cleanup (JS.floor_div 1700000120999 1000) sample_store !! sample_token =
     Some {| filePath := "/videos/intro.mp4"; userId := "USER_001";
             expires := 1700000120; createdAt := 1700000000000 |})
  ∧ (validate_token (Some sample_token) (1700000120999 + 1000) sample_store =
       (ValInvalid "Token expired", delete sample_token sample_store)
     ∧ media ("/media" +:+ "/videos/intro.mp4") (Some sample_token)
         (Some (JS.num_to_string 1700000120)) (Some "USER_001")
         (1700000120999 + 1000) sample_store =
       (MediaExpired (1700000120 * 1000), delete sample_token sample_store)
     ∧ cleanup (JS.floor_div (1700000120999 + 1000) 1000) sample_store
       !! sample_token = None).
Proof.
  apply (expiry_second_is_last_valid_second sample_token 1700000120999
    sample_store
    {| filePath := "/videos/intro.mp4"; userId := "USER_001";
       expires := 1700000120; createdAt := 1700000000000 |}
    sample_store_reachable).
  - vm_compute. reflexivity.
  - unfold max_expiry. simpl. lia.
  - vm_compute. reflexivity.
Defined.

Lemma append_assoc (a b c : string) : (a +:+ b) +:+ c = a +:+ (b +:+ c).
Proof.
  induction a as [|x a IH]; [done|].
  change (String x ((a +:+ b) +:+ c) = String x (a +:+ b +:+ c)). by f_equal.
Qed.

Lemma digits_of_app (fuel : nat) (n : Z) (acc : string) :
  JS.digits_of fuel n acc = JS.digits_of fuel n EmptyString +:+ acc.
Proof.
  revert n acc. induction fuel as [|fuel IH]; intros n acc; simpl; [done|].
  destruct (n <? 10); [done|].
  rewrite (IH (n / 10) (String (JS.digit_char (n mod 10)) acc)).
  rewrite (IH (n / 10) (String (JS.digit_char (n mod 10)) EmptyString)).
  by rewrite append_assoc.
Qed.

(** The rendering starts with a digit, which is 0 only for the number 0,
    rendered as the single digit. *)
Lemma digits_of_head (fuel : nat) (n : Z) (acc : string) :
  0 ≤ n < 2 ^ Z.of_nat (S fuel) →
  ∃ m rest, JS.digits_of (S fuel) n acc = String (JS.digit_char m) rest
    ∧ 0 ≤ m ≤ 9 ∧ (m = 0 → n = 0 ∧ rest = acc).
Proof.
  revert n acc. induction fuel as [|fuel IH]; intros n acc Hn.
  - simpl. change (2 ^ Z.of_nat 1) with 2 in Hn.
    replace (n <? 10) with true by (symmetry; apply Z.ltb_lt; lia).
    exists n, acc. rewrite Z.mod_small by lia. split; [done|]. split; [lia|].
    intros ->. done.
  - change (JS.digits_of (S (S fuel)) n acc) with
      (let acc' := String (JS.digit_char (n mod 10)) acc in
       if n <? 10 then acc' else JS.digits_of (S fuel) (n / 10) acc').
    cbv zeta. destruct (Z.ltb_spec n 10) as [Hlt|Hge].
    + exists n, acc. rewrite Z.mod_small by lia. split; [done|]. split; [lia|].
      intros ->. done.
    + assert (0 ≤ n / 10 < 2 ^ Z.of_nat (S fuel)) as Hn'.
      { split; [apply Z.div_pos; lia|].
        apply Z.div_lt_upper_bound; [lia|].
        rewrite (Nat2Z.inj_succ (S fuel)), Z.pow_succ_r in Hn by lia. lia. }
      destruct (IH (n / 10) (String (JS.digit_char (n mod 10)) acc) Hn')
        as (m & rest & Heq & Hm & Hzero).
      exists m, rest. split; [done|]. split; [done|].
      intros Hm0. destruct (Hzero Hm0) as [Hdiv _].
      assert (1 ≤ n / 10) by (apply Z.div_le_lower_bound; lia). lia.
Qed.

Lemma digit_char_not_zero (m : Z) :
  0 ≤ m ≤ 9 → m ≠ 0 → JS.digit_char m ≠ "0"%char.
Proof.
  intros Hm Hne Heq. apply (f_equal JS.code) in Heq.
  rewrite JSFacts.digit_char_code in Heq by done.
  change (JS.code "0") with 48 in Heq. lia.
Qed.

(** A string with a decimal digit in front, not followed by the radix mark
    of a hex literal, is read in radix 10 and has a digit to read. *)
Lemma decimal_head (c : ascii) (rest : string) :
  JS.is_decimal c →
  (c = "0"%char → ∀ r, rest ≠ String "x" r ∧ rest ≠ String "X" r) →
  JS.trim_start (String c rest) = String c rest
  ∧ JS.strip_sign (String c rest) = (1, String c rest)
  ∧ JS.strip_prefix (String c rest) = (10, String c rest)
  ∧ JS.starts_with_digit 10 (String c rest) = true.
Proof.
  intros Hc Hhex. split; [|split; [|split]].
  - pose proof (JSFacts.trim_start_decimal (String c EmptyString) ltac:(by split)) as H.
    simpl in *. by destruct (JS.is_white_space c).
  - pose proof (JSFacts.strip_sign_decimal (String c EmptyString) ltac:(by split)) as H.
    unfold JS.strip_sign in *.
    destruct c as [[] [] [] [] [] [] [] []]; done.
  - unfold JS.strip_prefix.
    destruct (Ascii.eqb_spec c "0") as [->|Hne].
    + destruct rest as [|x r]; [done|].
      destruct (Ascii.eqb_spec x "x") as [->|Hx]; [by destruct (Hhex eq_refl r)|].
      destruct (Ascii.eqb_spec x "X") as [->|HX]; [by destruct (Hhex eq_refl r)|].
      destruct x as [[] [] [] [] [] [] [] []]; done.
    + destruct c as [[] [] [] [] [] [] [] []]; done.
  - simpl. by rewrite JSFacts.radix_digit_decimal.
Qed.

(** The digits of [n] written in front of a tail that does not start with
    a digit: the value read is [n], and the string starts like a decimal
    number. *)
Lemma digits_then_tail (n : Z) (c : ascii) (tail : string) :
  0 ≤ n →
  JS.radix_digit 10 c = None →
  (n = 0 → c ≠ "x"%char ∧ c ≠ "X"%char) →
  ∃ h rest,
    JS.digits_of (S (Z.to_nat (Z.log2 n))) n (String c tail) = String h rest
    ∧ JS.is_decimal h
    ∧ (h = "0"%char → ∀ r, rest ≠ String "x" r ∧ rest ≠ String "X" r)
    ∧ JS.digits_value 10 (String h rest) 0 = n.
Proof.
  intros Hn Hc Hx.
  pose proof (JSFacts.fuel_enough n Hn) as Hfuel.
  destruct (digits_of_head _ n (String c tail) Hfuel) as (m & rest & Heq & Hm & Hzero).
  destruct (JSFacts.digits_value_digits_of _ n (String c tail) Hfuel) as (k & _ & Hk).
  exists (JS.digit_char m), rest. split; [done|].
  split; [by apply JSFacts.digit_char_decimal|]. split.
  - intros Hzero_char r.
    destruct (Z.eq_dec m 0) as [->|Hne];
      [|by destruct (digit_char_not_zero m Hm Hne)].
    destruct (Hzero eq_refl) as [-> ->]. destruct (Hx eq_refl). split; congruence.
  - rewrite <- Heq, Hk. simpl. rewrite Hc. lia.
Qed.

(** [parseInt] reads the number in front and ignores what follows it. *)
Lemma parseInt_ignores_tail (z : Z) (c : ascii) (tail : string) :
  JS.radix_digit 10 c = None →
  (z = 0 → c ≠ "x"%char ∧ c ≠ "X"%char) →
  JS.parseInt (JS.num_to_string z +:+ String c tail) = JS.Num z.
Proof.
  intros Hc Hx. unfold JS.num_to_string. destruct (Z.ltb_spec z 0) as [Hneg|Hpos].
  - change (String "-" ?s +:+ ?t) with (String "-" (s +:+ t)).
    rewrite <- digits_of_app.
    destruct (digits_then_tail (- z) c tail ltac:(lia) Hc ltac:(lia))
      as (h & rest & -> & Hh & Hhex & Hval).
    destruct (decimal_head h rest Hh Hhex) as (_ & _ & Hprefix & Hstart).
    unfold JS.parseInt.
    change (JS.trim_start (String "-" ?s)) with (String "-" s).
    change (JS.strip_sign (String "-" ?s)) with (-1, s). cbv beta iota.
    rewrite Hprefix, Hstart, Hval. f_equal. lia.
  - rewrite <- digits_of_app.
    destruct (digits_then_tail z c tail Hpos Hc Hx)
      as (h & rest & -> & Hh & Hhex & Hval).
    destruct (decimal_head h rest Hh Hhex) as (Htrim & Hsign & Hprefix & Hstart).
    unfold JS.parseInt. rewrite Htrim, Hsign, Hprefix, Hstart, Hval.
    f_equal. lia.
Qed.

(** X18: the media endpoint reads only the number in front of its
    [expires] parameter.  A request whose [expires] is the issued decimal
    value followed by anything that does not start with a digit is
    answered, and changes the store, exactly as the request with the
    issued value alone; the one exception is the value 0 followed by [x]
    or [X], which [parseInt] takes for a hex literal. *)
Theorem media_ignores_expires_suffix (path : string) (t u : option string)
    (z : Z) (c : ascii) (tail : string) (now : Z) store :
  JS.radix_digit 10 c = None →
  (z = 0 → c ≠ "x"%char ∧ c ≠ "X"%char) →
  media path t (Some (JS.num_to_string z +:+ String c tail)) u now store =
  media path t (Some (JS.num_to_string z)) u now store.
Proof.
  intros Hc Hx.
  pose proof (parseInt_ignores_tail z c tail Hc Hx) as Hjunk.
  pose proof (JSFacts.parseInt_num_to_string z) as Hplain.
  unfold media. simpl str.
  rewrite (parseInt_present _ z Hjunk), (parseInt_present _ z Hplain).
  by rewrite Hjunk, Hplain.
Qed.

Lemma media_ignores_expires_suffix_witness :
  media "/media/videos/intro.mp4" (Some sample_token)
    (Some (JS.num_to_string 1700000120 +:+ String "a" "bc&x=1"))
    (Some "USER_001") 1700000060000 sample_store =
  media "/media/videos/intro.mp4" (Some sample_token)
    (Some (JS.num_to_string 1700000120)) (Some "USER_001") 1700000060000
    sample_store.
Proof.
  apply (media_ignores_expires_suffix "/media/videos/intro.mp4"
    (Some sample_token) (Some "USER_001") 1700000120 "a" "bc&x=1"
    1700000060000 sample_store).
  - vm_compute. reflexivity.
  - intros H. discriminate H.
Defined.

End Edges.
